(** * cryptstr: compile-time string obfuscation with wiped runtime views

    A shallow embedding of [src/cryptstr.hpp] (namespace [cs]) and the
    properties its specification states about it.

    Modelling conventions.
    - [CharType] is instantiated at [char], the instantiation [main.cpp]
      uses and the one the comparison operators are written for (they take
      [const char (&)[Y]]).  A [char] value is an integer; whether plain
      [char] is signed is implementation defined and is a field of
      [Platform].  [sizeof(char)] is 1, so one memory cell holds one char.
    - An array [CharType[N]] is a [list Z] of length [N]; a pointer to its
      first element is modelled by the array it points into.  The template
      parameter [N] is an explicit index of [ctstr] and [cryptstr].
    - [for (size_t i = 0; N > i; ++i)] is [for_range N].
    - Run-time memory is a total map from addresses to cells together with
      the set of blocks obtained from the allocator and not handed back;
      where an object is placed (a stack slot, a block returned by the
      allocator) is an argument.  Of [std::basic_string] the model keeps
      where the characters are stored, when a block is requested (the
      characters do not fit the object), that the request can fail, and
      what the destructor hands back; the layout of the string object is
      not modelled, nor are the stack frames of callees. *)

From Stdlib Require Import ZArith String Ascii.
From stdpp Require Import base numbers list gmap.

#[local] Open Scope Z_scope.

(** ** Characters *)

Class Platform := MkPlatform {
  (** is plain [char] a signed type *)
  char_is_signed : bool;
  (** [sizeof(strview<char>)] *)
  sizeof_strview : nat;
  (** the longest string [std::basic_string<char>] keeps inside its own
      object, and the offset of that local buffer in the object *)
  sso_capacity : nat;
  sso_offset : Z
}.

(** [sizeof(CharType)] for [CharType = char]. *)
Definition sizeof_CharType : nat := 1.

(** Conversion of an [int] to [char]: the value modulo 2^8, in the range
    of the character type. *)
Definition to_char `{Platform} (z : Z) : Z :=
  if char_is_signed then (z + 128) mod 256 - 128 else z mod 256.

(** The values a [char] object can hold. *)
Definition is_char `{Platform} (z : Z) : Prop :=
  if char_is_signed then -128 <= z < 128 else 0 <= z < 256.

(** A string literal ["..."] is the array of its characters followed by
    the terminating null character. *)
Definition char_of_ascii `{Platform} (a : ascii) : Z :=
  to_char (Z.of_N (N_of_ascii a)).

Definition string_literal `{Platform} (s : string) : list Z :=
  (char_of_ascii <$> list_ascii_of_string s) ++ [0].

(** ** Loops *)

(** [for (size_t i = 0; n > i; ++i) body(i)] over a state [S]. *)
Definition for_range {S : Type} (n : nat) (body : nat → S → S) (s : S) : S :=
  foldl (λ acc i, body i acc) s (seq 0 n).

(** ** [struct ctstr<CharType, N>] *)

Record ctstr (N : nat) := Ctstr {
  str : list Z;   (* char_type str[N] *)
  len : nat       (* const size_t len *)
}.
Arguments str {N} _ : assert.
Arguments len {N} _ : assert.

(** The representation invariant every constructor establishes: [str] has
    [N] elements and [len] is [N]. *)
Definition ctstr_wf {N : nat} (s : ctstr N) : Prop :=
  length (str s) = N ∧ len s = N.

(** [constexpr ctstr() : str{}, len(N)] *)
Definition ctstr_empty (N : nat) : ctstr N :=
  Ctstr N (replicate N 0) N.

(** [ctstr(const char_type (&_str)[Y]) : str{}, len(Y)], where
    [static_assert(N == Y)]; [Y] is the length of the argument. *)
Definition ctstr_of_array (N : nat) (_str : list Z) : ctstr N :=
  let Y := length _str in
  Ctstr N
    (for_range N (λ i this_str, <[i := _str !!! i]> this_str) (replicate N 0))
    Y.

(** [ctstr(const ctstr<char_type,Y>& _other) : str{}, len(Y)], where
    [static_assert(N == Y)]. *)
Definition ctstr_of_ctstr (N : nat) {Y : nat} (_other : ctstr Y) : ctstr N :=
  Ctstr N
    (for_range N (λ i this_str, <[i := str _other !!! i]> this_str) (replicate N 0))
    Y.

(** [get()]: pointer to the first element of [str]. *)
Definition ctstr_get {N : nat} (s : ctstr N) : list Z := str s.

(** Outcome of an operation that may throw. *)
Inductive outcome (A : Type) :=
  | Returns (a : A)
  | Throws_out_of_range (what : string)
  | Throws_bad_alloc.
Arguments Returns {A} a.
Arguments Throws_out_of_range {A} what.
Arguments Throws_bad_alloc {A}.

(** [operator [] (size_t _index)] *)
Definition ctstr_index {N : nat} (s : ctstr N) (_index : nat) : outcome Z :=
  if (_index <? len s)%nat then Returns (str s !!! _index)
  else Throws_out_of_range "index out of range".

(** [size()] *)
Definition ctstr_size {N : nat} (s : ctstr N) : nat := len s.

(** The loop of [equal]: [remaining] iterations from index [i] on, leaving
    with [false] at the first mismatch. *)
Fixpoint equal_loop (str _str : list Z) (i remaining : nat) : bool :=
  match remaining with
  | O => true
  | S remaining' =>
      if negb (str !!! i =? _str !!! i) then false
      else equal_loop str _str (S i) remaining'
  end.

(** [bool equal(const char (&_str)[Y]) const] *)
Definition ctstr_equal {N : nat} (s : ctstr N) (_str : list Z) : bool :=
  equal_loop (str s) _str 0 N.

(** [operator == (const char (&_str)[Y])] *)
Definition ctstr_eq_array {N : nat} (s : ctstr N) (_str : list Z) : bool :=
  let Y := length _str in
  if negb (Y =? N)%nat then false else ctstr_equal s _str.

(** [operator == (const ctstr<char_type,Y> _other)] *)
Definition ctstr_eq {N Y : nat} (s : ctstr N) (_other : ctstr Y) : bool :=
  if negb (Y =? N)%nat then false else ctstr_equal s (str _other).

(** [operator != (const char (&_str)[Y])] *)
Definition ctstr_ne_array {N : nat} (s : ctstr N) (_str : list Z) : bool :=
  let Y := length _str in
  if negb (Y =? N)%nat then true else negb (ctstr_equal s _str).

(** [operator != (const ctstr<char_type,Y> _other)] *)
Definition ctstr_ne {N Y : nat} (s : ctstr N) (_other : ctstr Y) : bool :=
  if negb (Y =? N)%nat then true else negb (ctstr_equal s (str _other)).

(** [make_ctstr(const CharType (&_str)[N])] *)
Definition make_ctstr (N : nat) (_str : list Z) : ctstr N :=
  ctstr_of_array N _str.

(** [make_ctstr(const ctstr<CharType,N>& _other)]: the argument has the
    class's own type, so the implicitly declared copy constructor is
    selected and copies [str] and [len] member by member. *)
Definition make_ctstr_copy {N : nat} (_other : ctstr N) : ctstr N :=
  Ctstr N (str _other) (len _other).

(** ** [transform] *)

(** A transform object: [CharType functor(CharType*, size_t len, size_t index)]. *)
Definition Functor : Type := list Z → nat → nat → Z.

(** [transform(const ctstr<CharType,N>& _other, Functor _functor)] *)
Definition transform_ctstr {N : nat} (_other : ctstr N) (_functor : Functor)
  : ctstr N :=
  let values := replicate N 0 in
  let values :=
    for_range N
      (λ i values, <[i := _functor (ctstr_get _other) N i]> values) values in
  ctstr_of_array N values.

(** [transform(const CharType (&_str)[N], Functor _functor)] *)
Definition transform_array (N : nat) (_str : list Z) (_functor : Functor)
  : ctstr N :=
  let values := replicate N 0 in
  let values :=
    for_range N (λ i values, <[i := _functor _str N i]> values) values in
  ctstr_of_array N values.

(** [xor_functor<Key>::operator()]: the operand is promoted to [int],
    xor-ed with [Key], and the result converted to [CharType]. *)
Definition xor_functor `{Platform} (Key : Z) : Functor :=
  λ str len index, to_char (Z.lxor (str !!! index) Key).

(** ** Run-time memory *)

(** Memory cells by address, and the blocks obtained from the allocator
    and not handed back to it. *)
Record heap := Heap {
  bytes : Z → Z;
  live : gset Z
}.

(** [*p = v] *)
Definition poke (m : Z → Z) (p v : Z) : Z → Z :=
  λ a, if a =? p then v else m a.

(** The loop of [memzero]:
    [while (num-- > 0) { *char_ptr = 0; ++char_ptr; }] *)
Fixpoint memzero_loop (char_ptr : Z) (num : nat) (m : Z → Z) : Z → Z :=
  match num with
  | O => m
  | S num' => memzero_loop (char_ptr + 1) num' (poke m char_ptr 0)
  end.

(** [memzero(void* ptr, size_t num)] *)
Definition memzero (ptr : Z) (num : nat) (h : heap) : heap :=
  Heap (memzero_loop ptr num (bytes h)) (live h).

(** The [n] cells from address [p] on, read as an array. *)
Definition load_array (m : Z → Z) (p : Z) (n : nat) : list Z :=
  (λ i : nat, m (p + Z.of_nat i)) <$> seq 0 n.

(** The array [l] written to the cells from address [p] on. *)
Definition store_array (m : Z → Z) (p : Z) (l : list Z) : Z → Z :=
  for_range (length l) (λ i m, poke m (p + Z.of_nat i) (l !!! i)) m.

(** ** [struct strview<CharType>] *)

(** A view is a [std::basic_string] and a [zero<strview>] base: the address
    of the [zero] base subobject, the string's buffer [c_str()] and its
    [size()].  The base [zero] is an empty class and lies at offset 0 of
    the view (Itanium C++ ABI), so its address is the address of the view
    and of the string object in it. *)
Record strview := Strview {
  strview_zero_this : Z;
  strview_c_str : Z;
  strview_size : nat
}.

(** Where [std::basic_string(const CharT* s, size_type count)] puts its
    characters: in the local buffer of the string object at [this] when
    they fit, else in a block requested from the allocator, which answers
    with [block] or fails, and then the constructor throws
    [std::bad_alloc]. *)
Definition basic_string_allocate `{Platform} (this : Z) (block : option Z)
    (count : nat) (h : heap) : outcome (Z * heap) :=
  if (count <=? sso_capacity)%nat then Returns (this + sso_offset, h)
  else
    match block with
    | Some buf => Returns (buf, Heap (bytes h) ({[buf]} ∪ live h))
    | None => Throws_bad_alloc
    end.

(** [std::basic_string(const CharT* s, size_type count)] once its
    characters go to [buf]: the buffer receives the [count] characters at
    [s] and a terminating null character after them. *)
Definition basic_string_ctor (buf s : Z) (count : nat) (h : heap) : heap :=
  let chars := load_array (bytes h) s count in
  let m := store_array (bytes h) buf chars in
  let m := poke m (buf + Z.of_nat count) 0 in
  Heap m (live h).

(** [~basic_string()] of a string whose data pointer reads [data]: a
    block at [data] is handed back to the allocator, which does nothing
    for the null pointer; no cell is written. *)
Definition basic_string_dtor (data : Z) (h : heap) : heap :=
  if data =? 0 then h else Heap (bytes h) (live h ∖ {[data]}).

(** [strview(const ctstr<char_type,N>& _str)
       : std::basic_string<char_type>(_str.get(), _str.size())],
    for a [_str] whose elements are stored at address [get], once the
    characters of the string go to [buf]. *)
Definition strview_ctor (zero_this buf : Z) {N : nat}
    (get : Z) (_str : ctstr N) (h : heap) : strview * heap :=
  (Strview zero_this buf (ctstr_size _str),
   basic_string_ctor buf get (ctstr_size _str) h).

(** The same constructor from the start: the string first settles where
    its characters go, and an exception of that step leaves the
    constructor. *)
Definition strview_ctor_outcome `{Platform} (zero_this : Z) (block : option Z)
    {N : nat} (get : Z) (_str : ctstr N) (h : heap)
  : outcome (strview * heap) :=
  match basic_string_allocate zero_this block (ctstr_size _str) h with
  | Returns (buf, h) => Returns (strview_ctor zero_this buf get _str h)
  | Throws_out_of_range what => Throws_out_of_range what
  | Throws_bad_alloc => Throws_bad_alloc
  end.

(** The body of [~strview()]:
    [memzero(this->c_str(), this->size() * sizeof(CharType))] *)
Definition strview_dtor_body (v : strview) (h : heap) : heap :=
  memzero (strview_c_str v) (strview_size v * sizeof_CharType)%nat h.

(** [~zero()]: [memzero(static_cast<void*>(this), sizeof(parent_type))] *)
Definition zero_dtor `{Platform} (this : Z) (h : heap) : heap :=
  memzero this sizeof_strview h.

(** The state in which the destructor of the base [std::basic_string]
    starts: the destructor body has run, then the destructor of the base
    [zero], the last base in declaration order. *)
Definition strview_wiped `{Platform} (v : strview) (h : heap) : heap :=
  zero_dtor (strview_zero_this v) (strview_dtor_body v h).

(** What the members of the string read in that state: [~zero] has
    cleared the [sizeof(strview)] cells of the view, which are the
    representation of the string, so the data pointer is null and the
    size is zero. *)
Definition strview_wiped_members (v : strview) : strview :=
  Strview (strview_zero_this v) 0 0.

(** Destruction of a view: [strview_wiped], then the destructor of the
    base [std::basic_string], which finds the wiped members. *)
Definition strview_destroy `{Platform} (v : strview) (h : heap) : heap :=
  basic_string_dtor (strview_c_str (strview_wiped_members v))
    (strview_wiped v h).

(** The characters a view exposes: [size()] cells from [c_str()] on. *)
Definition strview_content (v : strview) (h : heap) : list Z :=
  load_array (bytes h) (strview_c_str v) (strview_size v).

(** ** [struct cryptstr<CharType, N, Functor>] *)

Record cryptstr (N : nat) := Cryptstr {
  functor : Functor;
  data : ctstr N
}.
Arguments functor {N} _.
Arguments data {N} _ : assert.

(** The implicitly declared copy constructor of [ctstr<CharType,N>]. *)
Definition ctstr_copy {N : nat} (_other : ctstr N) : ctstr N :=
  Ctstr N (str _other) (len _other).

(** [cryptstr(functor_type _functor, const ctstr<char_type,Y>& _other)
       : data(_other), functor(_functor)], where [static_assert(Y == N)]. *)
Definition cryptstr_ctor {N : nat} (_functor : Functor) (_other : ctstr N)
  : cryptstr N :=
  Cryptstr N _functor (ctstr_copy _other).

(** [size()] *)
Definition cryptstr_size {N : nat} (c : cryptstr N) : nat := N.

(** [ct()] *)
Definition cryptstr_ct {N : nat} (c : cryptstr N) : ctstr N := data c.

(** [decrypt()] once the characters of the view go to [buf].  The local
    [raw] has its elements at address [raw_get]; the view is built at
    [zero_this], and the returned object is the local [view] itself (the
    copy is elided).  The cells written are those of [raw] and of the
    buffer. *)
Definition cryptstr_decrypt {N : nat} (raw_get zero_this buf : Z)
    (c : cryptstr N) (h : heap) : strview * heap :=
  let raw := transform_ctstr (data c) (functor c) in
  let h := Heap (store_array (bytes h) raw_get (str raw)) (live h) in
  let '(view, h) := strview_ctor zero_this buf raw_get raw h in
  let h := memzero raw_get (sizeof_CharType * N)%nat h in
  (view, h).

(** [decrypt()] from the start, with the answer [block] of the allocator:
    an exception of the view's constructor leaves [decrypt] before the
    [memzero] of [raw]. *)
Definition cryptstr_decrypt_outcome `{Platform} {N : nat}
    (raw_get zero_this : Z) (block : option Z) (c : cryptstr N) (h : heap)
  : outcome strview * heap :=
  let raw := transform_ctstr (data c) (functor c) in
  let h := Heap (store_array (bytes h) raw_get (str raw)) (live h) in
  match strview_ctor_outcome zero_this block raw_get raw h with
  | Returns (view, h) =>
      let h := memzero raw_get (sizeof_CharType * N)%nat h in
      (Returns view, h)
  | Throws_out_of_range what => (Throws_out_of_range what, h)
  | Throws_bad_alloc => (Throws_bad_alloc, h)
  end.

(** [crypt(Functor _functor, const ctstr<CharType,N>& _other)] *)
Definition crypt_ctstr {N : nat} (_functor : Functor) (_other : ctstr N)
  : cryptstr N :=
  cryptstr_ctor _functor (transform_ctstr _other _functor).

(** [crypt(Functor _functor, const CharType (&_str)[N])] *)
Definition crypt_array (N : nat) (_functor : Functor) (_str : list Z)
  : cryptstr N :=
  cryptstr_ctor _functor (transform_array N _str _functor).

(** ** Auxiliary notions of the statements *)


(** Re-applying [F] to the [F]-transform of the array [P] gives back [P]. *)
Definition self_inverse_on (F : Functor) (N : nat) (P : list Z) : Prop :=
  ∀ i, (i < N)%nat → F (str (transform_array N P F)) N i = P !!! i.

(** A transform object that is invertible character by character without
    being its own inverse: a shift by one, and the shift back. *)
Definition shift_functor `{Platform} : Functor :=
  λ str len index, to_char (str !!! index + 1).

Definition unshift_functor `{Platform} : Functor :=
  λ str len index, to_char (str !!! index - 1).

(** [F] can be undone character by character by some transform object. *)
Definition per_char_invertible `{Platform} (F : Functor) : Prop :=
  ∃ G : Functor, ∀ (N : nat) (P : list Z),
    length P = N → Forall is_char P →
    str (transform_array N (str (transform_array N P F)) G) = P.

(** A platform with signed [char] and 32-byte strings that keep up to 15
    characters in the object, at offset 16 (x86-64, libstdc++), and a
    memory whose cells all hold 7, for the concrete instances. *)
Definition x86_64 : Platform := MkPlatform true 32 15 16.

Definition heap7 : heap := Heap (λ _, 7) ∅.

(** ** The constants of [main.cpp] *)

Definition main_functor : Functor := @xor_functor x86_64 0x1337.

Definition crypted1 : cryptstr 21 :=
  crypt_array 21 main_functor (@string_literal x86_64 "FIRST CRYPTED STRING").

Definition crypted2 : cryptstr 22 :=
  crypt_array 22 main_functor (@string_literal x86_64 "SECOND CRYPTED STRING").

Definition plain1 : ctstr 10 :=
  make_ctstr 10 (@string_literal x86_64 "HELLO DOG").

Definition plain2 : ctstr 10 :=
  make_ctstr 10 (@string_literal x86_64 "HELLO CAT").

Definition equal1 : ctstr 6 := make_ctstr 6 (@string_literal x86_64 "HELLO").

Definition equal2 : ctstr 6 := make_ctstr 6 (@string_literal x86_64 "HELLO").

(** ** The remaining routines of the header *)

(** The loop of [memset]:
    [while (num-- > 0) { *char_ptr = static_cast<char>(value); ++char_ptr; }] *)
Fixpoint memset_loop `{Platform} (char_ptr value : Z) (num : nat)
    (m : Z → Z) : Z → Z :=
  match num with
  | O => m
  | S num' =>
      memset_loop (char_ptr + 1) value num' (poke m char_ptr (to_char value))
  end.

(** [memset(void* ptr, int value, size_t num)], which returns [ptr]. *)
Definition memset `{Platform} (ptr value : Z) (num : nat) (h : heap)
  : Z * heap :=
  (ptr, Heap (memset_loop ptr value num (bytes h)) (live h)).

(** The allocator a [zero_plugin_allocator<Base>] is layered on: the size
    of its [value_type] and its [destroy] and [deallocate]. *)
Class BaseAllocator := MkBaseAllocator {
  sizeof_value_type : nat;
  Base_destroy : Z → heap → heap;
  Base_deallocate : Z → nat → heap → heap
}.

(** [zero_plugin_allocator::destroy(pointer p)] *)
Definition zero_plugin_allocator_destroy `{BaseAllocator} (p : Z) (h : heap)
  : heap :=
  let h := memzero p sizeof_value_type h in
  Base_destroy p h.

(** [zero_plugin_allocator::deallocate(pointer p, size_t n)] *)
Definition zero_plugin_allocator_deallocate `{BaseAllocator} (p : Z) (n : nat)
    (h : heap) : heap :=
  let h := memzero p (sizeof_value_type * n)%nat h in
  Base_deallocate p n h.

(** [std::allocator<char>] as a base, for the concrete instances: nothing
    to destroy in a [char], and [deallocate] hands the block back without
    writing to it. *)
Definition std_allocator_char : BaseAllocator :=
  MkBaseAllocator 1 (λ p h, h) (λ p n h, Heap (bytes h) (live h ∖ {[p]})).

(** [construct_transform(const ctstr<CharType,N>& _other, Functor _functor)] *)
Definition construct_transform_ctstr {N : nat} (_other : ctstr N)
    (_functor : Functor) : ctstr N :=
  let values := replicate N 0 in
  let values :=
    for_range N
      (λ i values, <[i := _functor (ctstr_get _other) N i]> values) values in
  ctstr_of_array N values.

(** [construct_transform(const CharType (&_str)[N], Functor _functor)] *)
Definition construct_transform_array (N : nat) (_str : list Z)
    (_functor : Functor) : ctstr N :=
  let values := replicate N 0 in
  let values :=
    for_range N (λ i values, <[i := _functor _str N i]> values) values in
  ctstr_of_array N values.

(** * Properties *)

(** ** Loops and arrays *)

Section Loops.
Context {S : Type}.
Implicit Types (body : nat → S → S) (s : S).

Lemma for_range_0 body s : for_range 0 body s = s.
Proof. reflexivity. Qed.

Lemma for_range_succ n body s :
  for_range (Datatypes.S n) body s = body n (for_range n body s).
Proof. unfold for_range. by rewrite seq_S, foldl_app. Qed.

(** Loop invariant rule: [P i] holds before iteration [i]. *)
Lemma for_range_ind (P : nat → S → Prop) n body s :
  P O s →
  (∀ i s', (i < n)%nat → P i s' → P (Datatypes.S i) (body i s')) →
  P n (for_range n body s).
Proof.
  intros H0 Hstep. induction n as [|n IH].
  - exact H0.
  - rewrite for_range_succ. apply Hstep; [lia|].
    apply IH. intros i s' Hi. apply Hstep. lia.
Qed.
End Loops.

(** Filling an array of [n] elements index by index. *)
Lemma for_range_fill (g : nat → Z) (n : nat) (init : list Z) :
  length init = n →
  for_range n (λ i values, <[i := g i]> values) init = g <$> seq 0 n.
Proof.
  intros Hlen.
  pose (Inv := λ (i : nat) (values : list Z),
          length values = n ∧ ∀ j, (j < i)%nat → values !! j = Some (g j)).
  assert (Inv n (for_range n (λ i values, <[i := g i]> values) init))
    as [Hn Hget].
  { apply for_range_ind; unfold Inv.
    - split; [done | intros j Hj; lia].
    - intros i values Hi [Hl Hprev]. split; [by rewrite length_insert|].
      intros j Hj. destruct (decide (j = i)) as [->|Hne].
      + apply list_lookup_insert_eq. lia.
      + rewrite list_lookup_insert_ne by done. apply Hprev. lia. }
  apply list_eq. intros j. rewrite list_lookup_fmap.
  destruct (decide (j < n)%nat) as [Hj|Hj].
  - rewrite lookup_seq_lt by done. by apply Hget.
  - rewrite lookup_seq_ge by lia. apply lookup_ge_None. lia.
Qed.

Lemma seq_lookup_total_id (l : list Z) :
  (λ i, l !!! i) <$> seq 0 (length l) = l.
Proof.
  apply list_eq. intros i. rewrite list_lookup_fmap.
  destruct (decide (i < length l)%nat) as [Hi|Hi].
  - rewrite lookup_seq_lt by done. simpl.
    destruct (lookup_lt_is_Some_2 l i Hi) as [x Hx].
    rewrite Hx. f_equal. by apply list_lookup_total_correct.
  - rewrite lookup_seq_ge by lia. simpl. symmetry. apply lookup_ge_None. lia.
Qed.

(** ** Fixed strings *)

Lemma ctstr_of_array_str (N : nat) (_str : list Z) :
  str (ctstr_of_array N _str) = (λ i, _str !!! i) <$> seq 0 N.
Proof.
  unfold ctstr_of_array. simpl.
  apply (for_range_fill (λ i, _str !!! i)). apply length_replicate.
Qed.

(** Construction from an array of the declared size copies it. *)
Lemma ctstr_of_array_exact (N : nat) (_str : list Z) :
  length _str = N → ctstr_of_array N _str = Ctstr N _str N.
Proof.
  intros <-. pose proof (ctstr_of_array_str (length _str) _str) as Hs.
  rewrite seq_lookup_total_id in Hs.
  unfold ctstr_of_array in *. simpl in *. by rewrite Hs.
Qed.

Lemma ctstr_of_array_wf (N : nat) (_str : list Z) :
  length _str = N → ctstr_wf (ctstr_of_array N _str).
Proof. intros Hl. rewrite ctstr_of_array_exact by done. by split. Qed.

Lemma ctstr_of_ctstr_exact (N : nat) (_other : ctstr N) :
  ctstr_wf _other → ctstr_of_ctstr N _other = _other.
Proof.
  intros [Hl Hn]. destruct _other as [s l]. simpl in *. subst.
  pose proof (ctstr_of_array_str (length s) s) as Hs.
  rewrite seq_lookup_total_id in Hs.
  unfold ctstr_of_ctstr, ctstr_of_array in *. simpl in *. by rewrite Hs.
Qed.

Lemma ctstr_copy_id (N : nat) (s : ctstr N) : ctstr_copy s = s.
Proof. by destruct s. Qed.

Lemma ctstr_empty_wf (N : nat) : ctstr_wf (ctstr_empty N).
Proof. split; [apply length_replicate | done]. Qed.

(** The early-exit loop of [equal] answers [true] exactly when the two
    arrays agree on the indices it visits. *)
Lemma equal_loop_true (a b : list Z) (i n : nat) :
  equal_loop a b i n = true ↔
  ∀ j, (i ≤ j < i + n)%nat → a !!! j = b !!! j.
Proof.
  revert i. induction n as [|n IH]; intros i; simpl.
  - split; [intros _ j Hj; lia | done].
  - destruct (Z.eqb_spec (a !!! i) (b !!! i)) as [Heq|Hne]; simpl.
    + rewrite IH. split.
      * intros Hall j Hj. destruct (decide (j = i)) as [->|]; [done|].
        apply Hall. lia.
      * intros Hall j Hj. apply Hall. lia.
    + split; [done|]. intros Hall. destruct Hne. apply Hall. lia.
Qed.

Lemma equal_loop_refl (a : list Z) (i n : nat) : equal_loop a a i n = true.
Proof. by apply equal_loop_true. Qed.

(** Two arrays of [N] elements agree index by index iff they are equal. *)
Lemma list_eq_lookup_total (a b : list Z) (N : nat) :
  length a = N → length b = N →
  (∀ j, (j < N)%nat → a !!! j = b !!! j) ↔ a = b.
Proof.
  intros Ha Hb. split; [|by intros ->].
  intros Hall. apply list_eq_same_length with N; [done..|].
  intros j x y Hj Hx Hy.
  apply list_lookup_total_correct in Hx, Hy. rewrite <- Hx, <- Hy.
  by apply Hall.
Qed.

Lemma ctstr_equal_true (N : nat) (s : ctstr N) (_str : list Z) :
  ctstr_equal s _str = true ↔ ∀ j, (j < N)%nat → str s !!! j = _str !!! j.
Proof.
  unfold ctstr_equal. rewrite equal_loop_true.
  split; intros Hall j Hj; apply Hall; lia.
Qed.

(** ** The transform engine *)

Lemma transform_array_str (N : nat) (_str : list Z) (F : Functor) :
  str (transform_array N _str F) = (λ i, F _str N i) <$> seq 0 N.
Proof.
  unfold transform_array.
  rewrite (for_range_fill (λ i, F _str N i)) by apply length_replicate.
  rewrite ctstr_of_array_exact; [done|].
  by rewrite length_fmap, length_seq.
Qed.

Lemma transform_array_wf (N : nat) (_str : list Z) (F : Functor) :
  ctstr_wf (transform_array N _str F).
Proof.
  unfold transform_array.
  rewrite (for_range_fill (λ i, F _str N i)) by apply length_replicate.
  apply ctstr_of_array_wf. by rewrite length_fmap, length_seq.
Qed.

Lemma transform_array_lookup (N : nat) (_str : list Z) (F : Functor) (i : nat) :
  (i < N)%nat → str (transform_array N _str F) !! i = Some (F _str N i).
Proof.
  intros Hi. rewrite transform_array_str, list_lookup_fmap.
  by rewrite lookup_seq_lt.
Qed.

Lemma transform_ctstr_unfold (N : nat) (s : ctstr N) (F : Functor) :
  transform_ctstr s F = transform_array N (str s) F.
Proof. reflexivity. Qed.

(** ** Characters and the xor transform *)

Section Chars.
Context `{Platform}.

Lemma to_char_is_char (z : Z) : is_char (to_char z).
Proof.
  unfold is_char, to_char. destruct char_is_signed.
  - pose proof (Z.mod_pos_bound (z + 128) 256). lia.
  - pose proof (Z.mod_pos_bound z 256). lia.
Qed.

Lemma to_char_id (z : Z) : is_char z → to_char z = z.
Proof.
  unfold is_char, to_char. destruct char_is_signed; intros Hz.
  - rewrite Z.mod_small by lia. lia.
  - by rewrite Z.mod_small by lia.
Qed.

Lemma to_char_mod (z : Z) : to_char z mod 256 = z mod 256.
Proof.
  unfold to_char. destruct char_is_signed.
  - rewrite Zminus_mod_idemp_l. f_equal. lia.
  - by rewrite Z.mod_mod by lia.
Qed.

Lemma to_char_congr (a b : Z) : a mod 256 = b mod 256 → to_char a = to_char b.
Proof.
  intros Hab. unfold to_char. destruct char_is_signed.
  - rewrite <- (Zplus_mod_idemp_l a), <- (Zplus_mod_idemp_l b), Hab. done.
  - done.
Qed.

Lemma lxor_mod_256 (a b : Z) :
  Z.lxor a b mod 256 = Z.lxor (a mod 256) (b mod 256).
Proof.
  change 256 with (2 ^ 8). apply Z.bits_inj'. intros n Hn.
  rewrite Z.lxor_spec, !Z.testbit_mod_pow2, Z.lxor_spec by lia.
  by destruct (n <? 8).
Qed.

Lemma lxor_fixpoint (a b : Z) : Z.lxor a b = a → b = 0.
Proof.
  intros Hab. apply (f_equal (Z.lxor a)) in Hab.
  by rewrite <- Z.lxor_assoc, Z.lxor_nilpotent, Z.lxor_0_l in Hab.
Qed.

(** A key with a non-zero low byte changes every character. *)
Lemma xor_changes (x Key : Z) : Key mod 256 ≠ 0 → to_char (Z.lxor x Key) ≠ x.
Proof.
  intros HKey Heq. apply HKey.
  apply (f_equal (λ z, z mod 256)) in Heq. simpl in Heq.
  rewrite to_char_mod, lxor_mod_256 in Heq.
  by apply lxor_fixpoint in Heq.
Qed.

(** Xor with a fixed key is its own inverse on characters. *)
Lemma xor_twice (x Key : Z) :
  is_char x → to_char (Z.lxor (to_char (Z.lxor x Key)) Key) = x.
Proof.
  intros Hx. rewrite <- (to_char_id x) at 2 by done.
  apply to_char_congr.
  rewrite lxor_mod_256, to_char_mod, lxor_mod_256.
  by rewrite Z.lxor_assoc, Z.lxor_nilpotent, Z.lxor_0_r.
Qed.

Lemma shift_unshift (x : Z) : is_char x → to_char (to_char (x + 1) - 1) = x.
Proof.
  intros Hx. rewrite <- (to_char_id x) at 2 by done.
  apply to_char_congr.
  rewrite <- Zminus_mod_idemp_l, to_char_mod, Zminus_mod_idemp_l.
  f_equal. lia.
Qed.

Lemma xor_functor_self_inverse (Key : Z) (N : nat) (P : list Z) :
  length P = N → Forall is_char P → self_inverse_on (xor_functor Key) N P.
Proof.
  intros Hlen Hchars i Hi. unfold xor_functor at 1.
  destruct (lookup_lt_is_Some_2 P i ltac:(lia)) as [x Hx].
  rewrite (list_lookup_total_correct _ _ _ (transform_array_lookup N P _ i Hi)).
  unfold xor_functor. rewrite (list_lookup_total_correct _ _ _ Hx).
  apply xor_twice. by apply (Forall_lookup_1 _ _ _ _ Hchars Hx).
Qed.
End Chars.

(** ** Memory *)

Lemma poke_eq (m : Z → Z) (p v : Z) : poke m p v p = v.
Proof. unfold poke. by rewrite Z.eqb_refl. Qed.

Lemma poke_ne (m : Z → Z) (p v a : Z) : a ≠ p → poke m p v a = m a.
Proof. unfold poke. intros Hne. by destruct (Z.eqb_spec a p). Qed.

(** What [memzero]'s loop leaves in each cell. *)
Lemma memzero_loop_spec (p : Z) (n : nat) (m : Z → Z) (a : Z) :
  memzero_loop p n m a
  = if bool_decide (p ≤ a < p + Z.of_nat n) then 0 else m a.
Proof.
  revert p m. induction n as [|n IH]; intros p m; simpl memzero_loop.
  - rewrite bool_decide_eq_false_2; [done | lia].
  - rewrite IH. destruct (decide (a = p)) as [->|Hne].
    + rewrite poke_eq. repeat case_bool_decide; (done || lia).
    + rewrite poke_ne by done. repeat case_bool_decide; (done || lia).
Qed.

Lemma memzero_loop_inside (p : Z) (n : nat) (m : Z → Z) (a : Z) :
  p ≤ a < p + Z.of_nat n → memzero_loop p n m a = 0.
Proof. intros Ha. rewrite memzero_loop_spec. by rewrite bool_decide_eq_true_2. Qed.

Lemma memzero_loop_outside (p : Z) (n : nat) (m : Z → Z) (a : Z) :
  a < p ∨ p + Z.of_nat n ≤ a → memzero_loop p n m a = m a.
Proof.
  intros Ha. rewrite memzero_loop_spec. rewrite bool_decide_eq_false_2; [done|lia].
Qed.

(** Zeroing never turns a zero cell into a non-zero one. *)
Lemma memzero_loop_keeps_zero (p : Z) (n : nat) (m : Z → Z) (a : Z) :
  m a = 0 → memzero_loop p n m a = 0.
Proof. intros Ha. rewrite memzero_loop_spec. by case_bool_decide. Qed.

Lemma store_array_spec (m : Z → Z) (p : Z) (l : list Z) (a : Z) :
  store_array m p l a
  = if bool_decide (p ≤ a < p + Z.of_nat (length l))
    then l !!! Z.to_nat (a - p) else m a.
Proof.
  unfold store_array.
  pose (Inv := λ (i : nat) (m' : Z → Z),
          m' a = if bool_decide (p ≤ a < p + Z.of_nat i)
                 then l !!! Z.to_nat (a - p) else m a).
  apply (for_range_ind Inv); unfold Inv.
  - rewrite bool_decide_eq_false_2; [done | lia].
  - intros i m' Hi Hm'. destruct (decide (a = p + Z.of_nat i)) as [->|Hne].
    + rewrite poke_eq, bool_decide_eq_true_2 by lia.
      f_equal. lia.
    + rewrite poke_ne, Hm' by done. repeat case_bool_decide; (done || lia).
Qed.

Lemma load_array_length (m : Z → Z) (p : Z) (n : nat) :
  length (load_array m p n) = n.
Proof. unfold load_array. by rewrite length_fmap, length_seq. Qed.

Lemma load_array_lookup (m : Z → Z) (p : Z) (n i : nat) :
  (i < n)%nat → load_array m p n !! i = Some (m (p + Z.of_nat i)).
Proof.
  intros Hi. unfold load_array. rewrite list_lookup_fmap.
  by rewrite lookup_seq_lt.
Qed.

(** Two memories that agree on a range load the same array from it. *)
Lemma load_array_ext (m1 m2 : Z → Z) (p : Z) (n : nat) :
  (∀ a, p ≤ a < p + Z.of_nat n → m1 a = m2 a) →
  load_array m1 p n = load_array m2 p n.
Proof.
  intros Hagree. apply list_eq. intros i.
  destruct (decide (i < n)%nat) as [Hi|Hi].
  - rewrite !load_array_lookup by done. f_equal. apply Hagree. lia.
  - rewrite !(proj2 (lookup_ge_None _ _)); [done|..];
      rewrite load_array_length; lia.
Qed.

Lemma load_store_array (m : Z → Z) (p : Z) (l : list Z) :
  load_array (store_array m p l) p (length l) = l.
Proof.
  apply list_eq. intros i. destruct (decide (i < length l)%nat) as [Hi|Hi].
  - rewrite load_array_lookup by done. rewrite store_array_spec.
    rewrite bool_decide_eq_true_2 by lia.
    replace (Z.to_nat (p + Z.of_nat i - p)) with i by lia.
    destruct (lookup_lt_is_Some_2 l i Hi) as [x Hx].
    by rewrite Hx, (list_lookup_total_correct _ _ _ Hx).
  - rewrite !(proj2 (lookup_ge_None _ _)); [done|..];
      rewrite ?load_array_length; lia.
Qed.

(** A string built from [count] characters at [s] holds exactly those
    characters in its own buffer. *)
Lemma basic_string_ctor_content (buf s : Z) (count : nat) (h : heap) :
  load_array (bytes (basic_string_ctor buf s count h)) buf count
  = load_array (bytes h) s count.
Proof.
  unfold basic_string_ctor. simpl.
  rewrite <- (load_store_array (bytes h) buf (load_array (bytes h) s count)) at 2.
  rewrite load_array_length. apply load_array_ext. intros a Ha.
  apply poke_ne. lia.
Qed.

(** Decoding: the view has [N] characters, the ones the transform engine
    computes from the stored string, and the transient [raw] is wiped;
    the buffer of the view and [raw] do not overlap. *)
Lemma cryptstr_decrypt_content (N : nat) (raw_get zero_this buf : Z)
    (c : cryptstr N) (h : heap) :
  raw_get + Z.of_nat N ≤ buf ∨ buf + Z.of_nat N ≤ raw_get →
  let vh := cryptstr_decrypt raw_get zero_this buf c h in
  strview_size vh.1 = N
  ∧ strview_c_str vh.1 = buf
  ∧ strview_content vh.1 vh.2 = str (transform_ctstr (data c) (functor c))
  ∧ load_array (bytes vh.2) raw_get N = replicate N 0.
Proof.
  intros Hdisj. unfold cryptstr_decrypt, strview_ctor, strview_content.
  cbn [fst snd strview_size strview_c_str bytes memzero].
  rewrite transform_ctstr_unfold.
  destruct (transform_array_wf N (str (data c)) (functor c)) as [Hlen Hn].
  set (raw := transform_array N (str (data c)) (functor c)) in *.
  unfold ctstr_size. rewrite Hn.
  split; [done|]. split; [done|]. split.
  - rewrite (load_array_ext _
      (bytes (basic_string_ctor buf raw_get N
                (Heap (store_array (bytes h) raw_get (str raw)) (live h))))).
    + rewrite basic_string_ctor_content. cbn [bytes].
      pose proof (load_store_array (bytes h) raw_get (str raw)) as Hls.
      by rewrite Hlen in Hls.
    + intros a Ha. apply memzero_loop_outside. unfold sizeof_CharType. lia.
  - apply list_eq. intros i. destruct (decide (i < N)%nat) as [Hi|Hi].
    + rewrite load_array_lookup, lookup_replicate_2 by done. f_equal.
      apply memzero_loop_inside. unfold sizeof_CharType. lia.
    + rewrite !(proj2 (lookup_ge_None _ _)); [done|..];
        rewrite ?load_array_length, ?length_replicate; lia.
Qed.

(** The cells of a view's buffer are zero when its storage is about to be
    released. *)
Lemma strview_wiped_buffer_zero `{Platform} (v : strview) (h : heap) (a : Z) :
  strview_c_str v ≤ a
    < strview_c_str v + Z.of_nat (strview_size v * sizeof_CharType) →
  bytes (strview_wiped v h) a = 0.
Proof.
  intros Ha. unfold strview_wiped, zero_dtor, strview_dtor_body, memzero.
  cbn [bytes]. apply memzero_loop_keeps_zero. by apply memzero_loop_inside.
Qed.

(** Destroying a view turns no zero cell into a non-zero one. *)
Lemma strview_destroy_keeps_zero `{Platform} (v : strview) (h : heap) (a : Z) :
  bytes h a = 0 → bytes (strview_destroy v h) a = 0.
Proof.
  intros Ha.
  unfold strview_destroy, basic_string_dtor, strview_wiped, zero_dtor,
    strview_dtor_body, memzero.
  cbn [bytes]. by do 2 apply memzero_loop_keeps_zero.
Qed.

(** After a string has been decoded and the view dropped, neither the
    transient [raw] nor the buffer of the view holds a plaintext
    character. *)
Lemma decrypt_destroy_leaves_zeros `{Platform} (N : nat)
    (raw_get zero_this buf : Z) (c : cryptstr N) (h : heap) (a : Z) :
  raw_get + Z.of_nat N ≤ buf ∨ buf + Z.of_nat N ≤ raw_get →
  raw_get ≤ a < raw_get + Z.of_nat N ∨ buf ≤ a < buf + Z.of_nat N →
  let vh := cryptstr_decrypt raw_get zero_this buf c h in
  bytes (strview_destroy vh.1 vh.2) a = 0.
Proof.
  intros Hdisj Ha vh.
  destruct (cryptstr_decrypt_content N raw_get zero_this buf c h Hdisj)
    as (Hsize & Hbuf & _ & Hraw).
  fold vh in Hsize, Hbuf, Hraw. destruct Ha as [Ha|Ha].
  - apply strview_destroy_keeps_zero.
    pose proof (load_array_lookup (bytes vh.2) raw_get N
                  (Z.to_nat (a - raw_get)) ltac:(lia)) as Hget.
    rewrite Hraw, lookup_replicate_2 in Hget by lia.
    replace (raw_get + Z.of_nat (Z.to_nat (a - raw_get))) with a in Hget by lia.
    congruence.
  - unfold strview_destroy, basic_string_dtor. cbn [bytes].
    apply strview_wiped_buffer_zero.
    rewrite Hbuf, Hsize. unfold sizeof_CharType. lia.
Qed.

(** The destructor of the base string finds a null data pointer and hands
    nothing back. *)
Lemma strview_destroy_unfold `{Platform} (v : strview) (h : heap) :
  strview_destroy v h = strview_wiped v h.
Proof. reflexivity. Qed.

(** ** Decoding from the start *)



Lemma cryptstr_decrypt_outcome_fails `{Platform} (N : nat)
    (raw_get zero_this : Z) (c : cryptstr N) (h : heap) :
  (sso_capacity < N)%nat →
  cryptstr_decrypt_outcome raw_get zero_this None c h
  = (Throws_bad_alloc,
     Heap (store_array (bytes h) raw_get
             (str (transform_ctstr (data c) (functor c)))) (live h)).
Proof.
  intros HN.
  unfold cryptstr_decrypt_outcome, strview_ctor_outcome, basic_string_allocate.
  destruct (transform_array_wf N (str (data c)) (functor c)) as [_ Hn].
  rewrite transform_ctstr_unfold. unfold ctstr_size at 1. rewrite Hn.
  by rewrite (proj2 (Nat.leb_gt _ _) HN).
Qed.

(** ** The assertions of [main.cpp] *)

Example main_crypted_differ :
  ctstr_ne (cryptstr_ct crypted1) (cryptstr_ct crypted2) = true.
Proof. reflexivity. Qed.

Example main_char2 : ctstr_index plain2 2 = Returns 76.
Proof. reflexivity. Qed.

Example main_prefix_equal :
  ctstr_index plain1 0 = ctstr_index plain2 0
  ∧ ctstr_index plain1 1 = ctstr_index plain2 1
  ∧ ctstr_index plain1 2 = ctstr_index plain2 2.
Proof. repeat split; reflexivity. Qed.

Example main_index_42 :
  ctstr_index plain1 42 = Throws_out_of_range "index out of range".
Proof. reflexivity. Qed.

Example main_plain_differ : ctstr_ne plain1 plain2 = true.
Proof. reflexivity. Qed.

Example main_equal : ctstr_eq equal1 equal2 = true.
Proof. reflexivity. Qed.

Example main_dec1 :
  let vh := cryptstr_decrypt 1000 2000 3000 crypted1 heap7 in
  strview_content vh.1 vh.2 = @string_literal x86_64 "FIRST CRYPTED STRING".
Proof. reflexivity. Qed.

(** * The claims *)

(** C3. Transform engine: for every fixed string [source] of length [N]
    and every functor [F], [transform(source, F)] is a fixed string of
    length [N] whose element at each index [i < N] is
    [F(source.get(), N, i)].  The engine is a function of [source] and [F]
    alone and returns nothing but the new string. *)
Theorem transform_ctstr_spec (N : nat) (source : ctstr N) (F : Functor)
    (i : nat) :
  (i < N)%nat →
  let result := transform_ctstr source F in
  ctstr_size result = N
  ∧ length (str result) = N
  ∧ str result !! i = Some (F (ctstr_get source) N i)
  ∧ ctstr_index result i = Returns (F (ctstr_get source) N i).
Proof.
  intros Hi result. subst result. rewrite transform_ctstr_unfold.
  destruct (transform_array_wf N (str source) F) as [Hlen Hn].
  pose proof (transform_array_lookup N (str source) F i Hi) as Hget.
  unfold ctstr_size, ctstr_index, ctstr_get. rewrite Hn.
  repeat split; try done.
  rewrite (proj2 (Nat.ltb_lt _ _) Hi).
  by rewrite (list_lookup_total_correct _ _ _ Hget).
Qed.

Lemma transform_ctstr_spec_witness :
  (2 < 6)%nat
  ∧ ctstr_index
      (transform_ctstr (make_ctstr 6 (@string_literal x86_64 "HELLO"))
         (@xor_functor x86_64 0x1337)) 2
    = Returns 123.
Proof.
  split; [lia|].
  exact (proj2 (proj2 (proj2
    (transform_ctstr_spec 6 (make_ctstr 6 (@string_literal x86_64 "HELLO"))
       (@xor_functor x86_64 0x1337) 2 ltac:(lia))))).
Defined.




(** C5. Equality: a fixed string of length [N] compared with a fixed
    string or a raw array of length [Y] is unequal whenever [Y] differs
    from [N]; when the lengths agree it is equal iff every element in
    [0, N) matches.  In particular [make(X) == make(X)] for every literal
    [X], and [make(X) != make(X')] for distinct literals [X], [X'] of any
    lengths. *)
Theorem ctstr_eq_semantics (N Y : nat) (a : ctstr N) (b : ctstr Y)
    (lit X X' : list Z) :
  ctstr_wf a → ctstr_wf b →
  (Y ≠ N → ctstr_eq a b = false)
  ∧ (length lit ≠ N → ctstr_eq_array a lit = false)
  ∧ (Y = N →
       (ctstr_eq a b = true ↔ ∀ i, (i < N)%nat → str a !! i = str b !! i))
  ∧ (length lit = N →
       (ctstr_eq_array a lit = true ↔ ∀ i, (i < N)%nat → str a !! i = lit !! i))
  ∧ ctstr_eq (make_ctstr (length X) X) (make_ctstr (length X) X) = true
  ∧ (X ≠ X' →
       ctstr_ne (make_ctstr (length X) X) (make_ctstr (length X') X') = true).
Proof.
  intros [Hla Hna] [Hlb Hnb].
  assert (∀ l : list Z, length l = N →
            (∀ i, (i < N)%nat → str a !!! i = l !!! i)
            ↔ (∀ i, (i < N)%nat → str a !! i = l !! i)) as Hpointwise.
  { intros l Hl. rewrite (list_eq_lookup_total _ _ N Hla Hl).
    split; [by intros -> |]. intros Hall.
    apply list_eq_same_length with N; [done..|].
    intros i x y Hi Hx Hy. specialize (Hall i Hi). congruence. }
  unfold ctstr_eq, ctstr_eq_array, ctstr_ne.
  split; [|split; [|split; [|split; [|split]]]].
  - intros Hne. by rewrite (proj2 (Nat.eqb_neq _ _) Hne).
  - intros Hne. by rewrite (proj2 (Nat.eqb_neq _ _) Hne).
  - intros ->. rewrite Nat.eqb_refl. simpl.
    rewrite ctstr_equal_true. by apply Hpointwise.
  - intros Hl. rewrite Hl, Nat.eqb_refl. simpl.
    rewrite ctstr_equal_true. by apply Hpointwise.
  - rewrite Nat.eqb_refl. cbn [negb]. apply equal_loop_refl.
  - intros Hdiff. destruct (Nat.eqb_spec (length X') (length X)) as [Hl|Hl];
      [|done]. cbn [negb]. apply negb_true_iff, not_true_is_false.
    intros Heq. apply Hdiff.
    rewrite ctstr_equal_true in Heq. unfold make_ctstr in Heq.
    rewrite (ctstr_of_array_exact (length X) X eq_refl) in Heq.
    rewrite (ctstr_of_array_exact (length X') X' eq_refl) in Heq.
    exact (proj1 (list_eq_lookup_total X X' (length X) eq_refl Hl) Heq).
Qed.

Lemma ctstr_eq_semantics_witness :
  let hello := [72; 69; 76; 76; 79; 0] in
  let dog := [72; 69; 76; 76; 79; 32; 68; 79; 71; 0] in
  let cat := [72; 69; 76; 76; 79; 32; 67; 65; 84; 0] in
  ctstr_wf (make_ctstr 10 dog) ∧ ctstr_wf (make_ctstr 6 hello)
  ∧ 6%nat ≠ 10%nat ∧ dog ≠ cat
  ∧ ctstr_eq (make_ctstr 10 dog) (make_ctstr 6 hello) = false
  ∧ ctstr_ne (make_ctstr 10 dog) (make_ctstr 10 cat) = true.
Proof.
  intros hello dog cat.
  assert (ctstr_wf (make_ctstr 10 dog)) as Hdog by (split; reflexivity).
  assert (ctstr_wf (make_ctstr 6 hello)) as Hhello by (split; reflexivity).
  assert (6%nat ≠ 10%nat) as Hlen by lia.
  assert (dog ≠ cat) as Hdiff by (subst dog cat; discriminate).
  pose proof (ctstr_eq_semantics 10 6 (make_ctstr 10 dog) (make_ctstr 6 hello)
                hello dog cat Hdog Hhello) as (H1 & _ & _ & _ & _ & H6).
  exact (conj Hdog (conj Hhello (conj Hlen (conj Hdiff
           (conj (H1 Hlen) (H6 Hdiff)))))).
Defined.

(** C9. Inequality is the negation of equality, against a fixed string of
    any length and against a raw array of any length, and every fixed
    string equals itself. *)
Theorem ctstr_ne_is_negb_eq (N Y : nat) (a : ctstr N) (b : ctstr Y)
    (lit : list Z) :
  ctstr_ne a b = negb (ctstr_eq a b)
  ∧ ctstr_ne_array a lit = negb (ctstr_eq_array a lit)
  ∧ ctstr_eq a a = true.
Proof.
  unfold ctstr_ne, ctstr_eq, ctstr_ne_array, ctstr_eq_array.
  split; [|split].
  - by destruct (Y =? N)%nat.
  - by destruct (length lit =? N)%nat.
  - rewrite Nat.eqb_refl. simpl. apply equal_loop_refl.
Qed.

(** C7. Overload equivalence: for every functor [F] and every content of
    [N] characters, [transform] applied to the fixed string made from the
    content and [transform] applied to the raw array give equal fixed
    strings, and the two [crypt] overloads give obfuscated values with the
    same stored content and functor. *)
Theorem overloads_agree (N : nat) (content : list Z) (F : Functor) :
  length content = N →
  transform_ctstr (make_ctstr N content) F = transform_array N content F
  ∧ ctstr_eq (transform_ctstr (make_ctstr N content) F)
             (transform_array N content F) = true
  ∧ crypt_ctstr F (make_ctstr N content) = crypt_array N F content
  ∧ str (cryptstr_ct (crypt_ctstr F (make_ctstr N content)))
    = str (cryptstr_ct (crypt_array N F content)).
Proof.
  intros Hlen.
  assert (transform_ctstr (make_ctstr N content) F = transform_array N content F)
    as Heq.
  { rewrite transform_ctstr_unfold. unfold make_ctstr.
    by rewrite ctstr_of_array_exact. }
  unfold crypt_ctstr, crypt_array, cryptstr_ct. rewrite Heq.
  repeat split. unfold ctstr_eq. rewrite Nat.eqb_refl. simpl.
  apply equal_loop_refl.
Qed.

Lemma overloads_agree_witness :
  length [72; 69; 76; 76; 79; 0] = 6%nat
  ∧ crypt_ctstr (@xor_functor x86_64 0x1337)
      (make_ctstr 6 [72; 69; 76; 76; 79; 0])
    = crypt_array 6 (@xor_functor x86_64 0x1337) [72; 69; 76; 76; 79; 0].
Proof.
  split; [reflexivity|].
  exact (proj1 (proj2 (proj2
    (overloads_agree 6 [72; 69; 76; 76; 79; 0] (@xor_functor x86_64 0x1337)
       eq_refl)))).
Defined.

(** C8. The wipe primitive: [memzero(p, n)] leaves zero in each of the [n]
    cells from [p] on and leaves every cell outside [p, p+n) as it was; it
    changes no ownership. *)
Theorem memzero_spec (p : Z) (n : nat) (h : heap) (a : Z) :
  (p ≤ a < p + Z.of_nat n → bytes (memzero p n h) a = 0)
  ∧ (a < p ∨ p + Z.of_nat n ≤ a → bytes (memzero p n h) a = bytes h a)
  ∧ live (memzero p n h) = live h.
Proof.
  unfold memzero. cbn [bytes live]. split; [|split].
  - apply memzero_loop_inside.
  - apply memzero_loop_outside.
  - reflexivity.
Qed.

Lemma memzero_spec_witness :
  (1000 ≤ 1002 < 1000 + Z.of_nat 4 ∧ bytes (memzero 1000 4 heap7) 1002 = 0)
  ∧ ((1004 < 1000 ∨ 1000 + Z.of_nat 4 ≤ 1004)
     ∧ bytes (memzero 1000 4 heap7) 1004 = 7).
Proof.
  assert (1000 ≤ 1002 < 1000 + Z.of_nat 4) as Hin by lia.
  assert (1004 < 1000 ∨ 1000 + Z.of_nat 4 ≤ 1004) as Hout by lia.
  split.
  - split; [exact Hin|].
    exact (proj1 (memzero_spec 1000 4 heap7 1002) Hin).
  - split; [exact Hout|].
    exact (proj1 (proj2 (memzero_spec 1000 4 heap7 1004)) Hout).
Defined.

(** C2. Erasure on destruction: when a view is destroyed, each of the
    [size() * sizeof(CharType)] cells of its buffer at [c_str()] is zero
    from the end of the destructor body on.  It is zero, and no block has
    been handed back, when the destructor of the base string starts, the
    only step that releases storage, and it is zero once the view is
    gone. *)
Theorem strview_destroy_erases `{Platform} (v : strview) (h : heap) (a : Z) :
  strview_c_str v ≤ a
    < strview_c_str v + Z.of_nat (strview_size v * sizeof_CharType) →
  bytes (strview_dtor_body v h) a = 0
  ∧ bytes (strview_wiped v h) a = 0
  ∧ live (strview_wiped v h) = live h
  ∧ bytes (strview_destroy v h) a = 0.
Proof.
  intros Ha.
  pose proof (strview_wiped_buffer_zero v h a Ha) as Hzero.
  split; [|split; [exact Hzero | split; [reflexivity|]]].
  - unfold strview_dtor_body, memzero. cbn [bytes].
    by apply memzero_loop_inside.
  - rewrite strview_destroy_unfold. exact Hzero.
Qed.

Lemma strview_destroy_erases_witness :
  let v := Strview 2000 3000 21 in
  let h := Heap (store_array (λ _, 7) 3000 (@string_literal x86_64 "FIRST CRYPTED STRING"))
             {[3000]} in
  3000 ≤ 3004 < 3000 + Z.of_nat (21 * sizeof_CharType)
  ∧ bytes h 3004 = 84
  ∧ bytes (@strview_destroy x86_64 v h) 3004 = 0.
Proof.
  intros v h.
  assert (3000 ≤ 3004 < 3000 + Z.of_nat (21 * sizeof_CharType)) as Hin
    by (unfold sizeof_CharType; lia).
  split; [exact Hin|]. split; [reflexivity|].
  exact (proj2 (proj2 (proj2 (@strview_destroy_erases x86_64 v h 3004 Hin)))).
Defined.

(** A literal of [n] characters is an array of [n + 1] characters, the
    last of which is the null character, and all of them are [char]s. *)
Lemma list_ascii_of_string_length (s : string) :
  length (list_ascii_of_string s) = String.length s.
Proof. induction s as [|c s IH]; simpl; [done | by rewrite IH]. Qed.

Lemma string_literal_length `{Platform} (s : string) :
  length (string_literal s) = Datatypes.S (String.length s).
Proof.
  unfold string_literal.
  rewrite length_app, length_fmap, list_ascii_of_string_length. simpl. lia.
Qed.


Lemma string_literal_is_char `{Platform} (s : string) :
  Forall is_char (string_literal s).
Proof.
  unfold string_literal. apply Forall_app. split.
  - apply Forall_fmap, Forall_true. intros c. apply to_char_is_char.
  - apply Forall_singleton. unfold is_char. destruct char_is_signed; lia.
Qed.



(** C6. No plaintext at rest: for every plaintext [P] of length [N]
    encoded with [xor_functor<Key>], where [Key mod 256] is not zero, the
    fixed string stored in the obfuscated value differs from [P] at every
    index in [0, N), whichever [crypt] overload encoded it. *)
Theorem xor_no_plaintext_at_rest `{Platform} (N : nat) (P : list Z) (Key : Z)
    (i : nat) :
  length P = N → Key mod 256 ≠ 0 → (i < N)%nat →
  ∃ p c,
    P !! i = Some p
    ∧ str (cryptstr_ct (crypt_array N (xor_functor Key) P)) !! i = Some c
    ∧ str (cryptstr_ct (crypt_ctstr (xor_functor Key) (make_ctstr N P))) !! i
      = Some c
    ∧ c ≠ p.
Proof.
  intros Hlen HKey Hi.
  destruct (lookup_lt_is_Some_2 P i ltac:(lia)) as [p Hp].
  exists p, (to_char (Z.lxor p Key)).
  assert (str (transform_array N P (xor_functor Key)) !! i
          = Some (to_char (Z.lxor p Key))) as Hc.
  { rewrite transform_array_lookup by done. unfold xor_functor.
    by rewrite (list_lookup_total_correct _ _ _ Hp). }
  unfold crypt_array, crypt_ctstr, cryptstr_ct, cryptstr_ctor, make_ctstr.
  cbn [data ctstr_copy str].
  rewrite transform_ctstr_unfold, ctstr_of_array_exact by done. cbn [str].
  split; [done|]. split; [done|]. split; [done|].
  by apply xor_changes.
Qed.

Lemma xor_no_plaintext_at_rest_witness :
  let P := @string_literal x86_64 "FIRST CRYPTED STRING" in
  length P = 21%nat ∧ 0x1337 mod 256 ≠ 0 ∧ (0 < 21)%nat
  ∧ ∃ p c,
      P !! 0%nat = Some p
      ∧ str (cryptstr_ct (crypt_array 21 (@xor_functor x86_64 0x1337) P)) !! 0%nat
        = Some c
      ∧ c ≠ p.
Proof.
  intros P.
  assert (length P = 21%nat) as Hlen by reflexivity.
  assert (0x1337 mod 256 ≠ 0) as HKey by (vm_compute; discriminate).
  assert (0 < 21)%nat as Hi by lia.
  destruct (@xor_no_plaintext_at_rest x86_64 21 P 0x1337 0 Hlen HKey Hi)
    as (p & c & Hp & Hc & _ & Hne).
  exact (conj Hlen (conj HKey (conj Hi
           (ex_intro _ p (ex_intro _ c (conj Hp (conj Hc Hne))))))).
Defined.

(** The spot check of the specification: with key [0x1337] every stored
    character of ["FIRST CRYPTED STRING"] differs from the plaintext. *)
Example first_crypted_string_differs_everywhere :
  let P := @string_literal x86_64 "FIRST CRYPTED STRING" in
  forallb (λ pc, negb (pc.1 =? pc.2))
    (zip P (str (cryptstr_ct (crypt_array 21 (@xor_functor x86_64 0x1337) P))))
  = true.
Proof. reflexivity. Qed.

(** The shift by one is a transform object within the contract: it
    returns characters and the shift back undoes it. *)
Lemma shift_functor_invertible `{Platform} : per_char_invertible shift_functor.
Proof.
  exists unshift_functor. intros N P Hlen Hchars. subst N.
  rewrite !transform_array_str.
  transitivity ((λ i, P !!! i) <$> seq 0 (length P));
    [|apply seq_lookup_total_id].
  apply list_eq. intros i. rewrite !list_lookup_fmap.
  destruct (decide (i < length P)%nat) as [Hi|Hi].
  - rewrite lookup_seq_lt by done. simpl. f_equal.
    unfold unshift_functor, shift_functor.
    erewrite (list_lookup_total_correct _ i); last first.
    { rewrite list_lookup_fmap, lookup_seq_lt by done. reflexivity. }
    simpl. destruct (lookup_lt_is_Some_2 P i Hi) as [x Hx].
    rewrite (list_lookup_total_correct _ _ _ Hx).
    apply shift_unshift. by apply (Forall_lookup_1 _ _ _ _ Hchars Hx).
  - by rewrite lookup_seq_ge by lia.
Qed.

(** C1, as stated, fails: the round trip does not hold for every transform
    object of the contract.  With the shift by one, which returns
    characters and is invertible, ["A"] decodes to ["C"]. *)
Lemma roundtrip_fails_for_shift_functor :
  ¬ (∀ (F : Functor) (N : nat) (P : list Z) (raw_get zero_this buf : Z)
       (h : heap) (i : nat),
       length P = N →
       Forall (@is_char x86_64) P →
       (∀ s n j, @is_char x86_64 (F s n j)) →
       @per_char_invertible x86_64 F →
       raw_get + Z.of_nat N ≤ buf ∨ buf + Z.of_nat N ≤ raw_get →
       (i < N)%nat →
       let vh := cryptstr_decrypt raw_get zero_this buf (crypt_array N F P) h in
       strview_content vh.1 vh.2 !! i = P !! i).
Proof.
  intros Hall.
  specialize (Hall (@shift_functor x86_64) 2%nat (@string_literal x86_64 "A")
                1000 2000 3000 heap7 0%nat).
  assert (Some 67 = Some 65) as Habsurd; [|discriminate].
  apply Hall.
  - reflexivity.
  - apply string_literal_is_char.
  - intros s n j. apply to_char_is_char.
  - apply shift_functor_invertible.
  - lia.
  - lia.
Qed.

(** C1, amended. Round trip: for every plaintext [P] of length [N] and
    every transform object [F] that is its own inverse on [P], encoding [P]
    with [F] (either [crypt] overload) and decoding yields a view of size
    [N] whose content equals [P] at every index in [0, N).  The buffer of
    the view and the transient local [raw] are distinct objects. *)
Theorem roundtrip_self_inverse (N : nat) (P : list Z) (F : Functor)
    (raw_get zero_this buf : Z) (h : heap) (i : nat) :
  length P = N →
  self_inverse_on F N P →
  raw_get + Z.of_nat N ≤ buf ∨ buf + Z.of_nat N ≤ raw_get →
  (i < N)%nat →
  let vh := cryptstr_decrypt raw_get zero_this buf (crypt_array N F P) h in
  let vh' :=
    cryptstr_decrypt raw_get zero_this buf (crypt_ctstr F (make_ctstr N P)) h in
  strview_size vh.1 = N
  ∧ strview_content vh.1 vh.2 !! i = P !! i
  ∧ strview_size vh'.1 = N
  ∧ strview_content vh'.1 vh'.2 !! i = P !! i.
Proof.
  intros Hlen Hinv Hdisj Hi vh vh'.
  assert (crypt_ctstr F (make_ctstr N P) = crypt_array N F P) as Hsame.
  { unfold crypt_ctstr, crypt_array, make_ctstr.
    by rewrite transform_ctstr_unfold, ctstr_of_array_exact. }
  subst vh'. rewrite Hsame. fold vh.
  destruct (cryptstr_decrypt_content N raw_get zero_this buf
              (crypt_array N F P) h Hdisj) as (Hsize & _ & Hcontent & _).
  fold vh in Hsize, Hcontent.
  assert (strview_content vh.1 vh.2 !! i = P !! i) as Hget.
  { rewrite Hcontent. unfold crypt_array, cryptstr_ctor. cbn [data functor].
    rewrite ctstr_copy_id, transform_ctstr_unfold.
    rewrite transform_array_lookup by done.
    rewrite (Hinv i Hi).
    destruct (lookup_lt_is_Some_2 P i ltac:(lia)) as [x Hx].
    by rewrite Hx, (list_lookup_total_correct _ _ _ Hx). }
  done.
Qed.

Lemma roundtrip_self_inverse_witness :
  let P := @string_literal x86_64 "FIRST CRYPTED STRING" in
  let F := @xor_functor x86_64 0x1337 in
  let vh := cryptstr_decrypt 1000 2000 3000 (crypt_array 21 F P) heap7 in
  length P = 21%nat
  ∧ self_inverse_on F 21 P
  ∧ (1000 + Z.of_nat 21 ≤ 3000 ∨ 3000 + Z.of_nat 21 ≤ 1000)
  ∧ (4 < 21)%nat
  ∧ strview_size vh.1 = 21%nat
  ∧ strview_content vh.1 vh.2 !! 4%nat = Some 84.
Proof.
  intros P F vh.
  assert (length P = 21%nat) as Hlen by reflexivity.
  assert (self_inverse_on F 21 P) as Hinv.
  { apply (@xor_functor_self_inverse x86_64); [exact Hlen|].
    apply (@string_literal_is_char x86_64). }
  assert (1000 + Z.of_nat 21 ≤ 3000 ∨ 3000 + Z.of_nat 21 ≤ 1000) as Hdisj
    by lia.
  assert (4 < 21)%nat as Hi by lia.
  destruct (roundtrip_self_inverse 21 P F 1000 2000 3000 heap7 4
              Hlen Hinv Hdisj Hi) as (Hsize & Hget & _).
  exact (conj Hlen (conj Hinv (conj Hdisj (conj Hi (conj Hsize Hget))))).
Defined.

(** * Further properties of the code *)

(** ** [memset] and [memzero] *)

Lemma memset_loop_spec `{Platform} (p value : Z) (n : nat) (m : Z → Z)
    (a : Z) :
  memset_loop p value n m a
  = if bool_decide (p ≤ a < p + Z.of_nat n) then to_char value else m a.
Proof.
  revert p m. induction n as [|n IH]; intros p m; simpl memset_loop.
  - rewrite bool_decide_eq_false_2; [done | lia].
  - rewrite IH. destruct (decide (a = p)) as [->|Hne].
    + rewrite poke_eq. repeat case_bool_decide; (done || lia).
    + rewrite poke_ne by done. repeat case_bool_decide; (done || lia).
Qed.

(** X1. [memset(ptr, value, num)] returns [ptr], leaves [value] converted
    to [char] in each of the [num] cells from [ptr] on, leaves every other
    cell as it was and changes no ownership. *)
Theorem memset_spec `{Platform} (ptr value : Z) (num : nat) (h : heap)
    (a : Z) :
  (memset ptr value num h).1 = ptr
  ∧ (ptr ≤ a < ptr + Z.of_nat num →
       bytes (memset ptr value num h).2 a = to_char value)
  ∧ (a < ptr ∨ ptr + Z.of_nat num ≤ a →
       bytes (memset ptr value num h).2 a = bytes h a)
  ∧ live (memset ptr value num h).2 = live h.
Proof.
  unfold memset. cbn [fst snd bytes live]. rewrite memset_loop_spec.
  split; [done|]. split; [|split; [|done]].
  - intros Ha. by rewrite bool_decide_eq_true_2.
  - intros Ha. rewrite bool_decide_eq_false_2; [done | lia].
Qed.

Lemma memset_spec_witness :
  (1000 ≤ 1001 < 1000 + Z.of_nat 3
   ∧ bytes (@memset x86_64 1000 0x141 3 heap7).2 1001 = 65)
  ∧ ((1003 < 1000 ∨ 1000 + Z.of_nat 3 ≤ 1003)
     ∧ bytes (@memset x86_64 1000 0x141 3 heap7).2 1003 = 7).
Proof.
  assert (1000 ≤ 1001 < 1000 + Z.of_nat 3) as Hin by lia.
  assert (1003 < 1000 ∨ 1000 + Z.of_nat 3 ≤ 1003) as Hout by lia.
  split.
  - split; [exact Hin|].
    exact (proj1 (proj2 (@memset_spec x86_64 1000 0x141 3 heap7 1001)) Hin).
  - split; [exact Hout|].
    exact (proj1 (proj2 (proj2 (@memset_spec x86_64 1000 0x141 3 heap7 1003)))
             Hout).
Defined.

(** X2. [memset] with the value zero, and with any value whose low byte
    is zero, leaves memory exactly as [memzero] does. *)
Theorem memset_zero_is_memzero `{Platform} (ptr value : Z) (num : nat)
    (h : heap) (a : Z) :
  value mod 256 = 0 →
  bytes (memset ptr value num h).2 a = bytes (memzero ptr num h) a
  ∧ live (memset ptr value num h).2 = live (memzero ptr num h).
Proof.
  intros Hvalue. unfold memset, memzero. cbn [snd bytes live].
  rewrite memset_loop_spec, memzero_loop_spec.
  replace (to_char value) with 0; [done|].
  rewrite (to_char_congr value 0) by done.
  symmetry. apply to_char_id. unfold is_char. destruct char_is_signed; lia.
Qed.

Lemma memset_zero_is_memzero_witness :
  0x300 mod 256 = 0
  ∧ bytes (@memset x86_64 1000 0x300 4 heap7).2 1002
    = bytes (memzero 1000 4 heap7) 1002.
Proof.
  assert (0x300 mod 256 = 0) as Hvalue by reflexivity.
  split; [exact Hvalue|].
  exact (proj1 (@memset_zero_is_memzero x86_64 1000 0x300 4 heap7 1002 Hvalue)).
Defined.

(** X3. Wiping is idempotent: a second [memzero] of the same range leaves
    every cell as the first one left it. *)
Theorem memzero_idempotent (ptr : Z) (num : nat) (h : heap) (a : Z) :
  bytes (memzero ptr num (memzero ptr num h)) a = bytes (memzero ptr num h) a.
Proof.
  unfold memzero. cbn [bytes]. rewrite !memzero_loop_spec.
  by case_bool_decide.
Qed.

(** X4. Two wipes commute, whether or not their ranges overlap. *)
Theorem memzero_commute (p q : Z) (n k : nat) (h : heap) (a : Z) :
  bytes (memzero p n (memzero q k h)) a = bytes (memzero q k (memzero p n h)) a.
Proof.
  unfold memzero. cbn [bytes]. rewrite !memzero_loop_spec.
  by repeat case_bool_decide.
Qed.

(** X5. A wipe of [n + k] cells is a wipe of the first [n] followed by a
    wipe of the [k] after them; a wipe of no cell changes nothing. *)
Theorem memzero_split (p : Z) (n k : nat) (h : heap) (a : Z) :
  bytes (memzero p (n + k) h) a
  = bytes (memzero (p + Z.of_nat n) k (memzero p n h)) a
  ∧ bytes (memzero p 0 h) a = bytes h a.
Proof.
  unfold memzero. cbn [bytes]. rewrite !memzero_loop_spec. split.
  - repeat case_bool_decide; (done || lia).
  - rewrite bool_decide_eq_false_2; [done | lia].
Qed.

(** ** Fixed strings: construction, copies and equality *)

Lemma equal_loop_sym (a b : list Z) (i n : nat) :
  equal_loop a b i n = equal_loop b a i n.
Proof.
  revert i. induction n as [|n IH]; intros i; simpl; [done|].
  by rewrite (Z.eqb_sym (a !!! i)), IH.
Qed.

Lemma ctstr_eq_true_inv (N Y : nat) (a : ctstr N) (b : ctstr Y) :
  ctstr_eq a b = true →
  Y = N ∧ ∀ j, (j < N)%nat → str a !!! j = str b !!! j.
Proof.
  unfold ctstr_eq. destruct (Nat.eqb_spec Y N) as [->|Hne]; [|done].
  cbn [negb]. intros Heq. split; [done|]. by apply ctstr_equal_true.
Qed.

(** X6. A fixed string made from an array of [N] characters satisfies the
    representation invariant, has size [N], returns the array's element
    [i] at every index [i < N] and throws at every index from [N] on. *)
Theorem make_ctstr_reads_back (N : nat) (A : list Z) (i : nat) :
  length A = N →
  ctstr_wf (make_ctstr N A)
  ∧ ctstr_size (make_ctstr N A) = N
  ∧ ((i < N)%nat →
       ∃ c, A !! i = Some c ∧ ctstr_index (make_ctstr N A) i = Returns c)
  ∧ ((N ≤ i)%nat →
       ctstr_index (make_ctstr N A) i
       = Throws_out_of_range "index out of range").
Proof.
  intros Hlen. unfold make_ctstr. rewrite ctstr_of_array_exact by done.
  unfold ctstr_size, ctstr_index. cbn [str len].
  split; [by split|]. split; [done|]. split.
  - intros Hi. destruct (lookup_lt_is_Some_2 A i ltac:(lia)) as [c Hc].
    exists c. split; [done|]. rewrite (proj2 (Nat.ltb_lt _ _) Hi).
    by rewrite (list_lookup_total_correct _ _ _ Hc).
  - intros Hi. by rewrite (proj2 (Nat.ltb_ge _ _) Hi).
Qed.

Lemma make_ctstr_reads_back_witness :
  length [72; 73; 0] = 3%nat
  ∧ (1 < 3)%nat ∧ (3 ≤ 7)%nat
  ∧ (∃ c, [72; 73; 0] !! 1%nat = Some c
          ∧ ctstr_index (make_ctstr 3 [72; 73; 0]) 1 = Returns c)
  ∧ ctstr_index (make_ctstr 3 [72; 73; 0]) 7
    = Throws_out_of_range "index out of range".
Proof.
  assert (length [72; 73; 0] = 3%nat) as Hlen by reflexivity.
  assert (1 < 3)%nat as H1 by lia.
  assert (3 ≤ 7)%nat as H7 by lia.
  exact (conj Hlen (conj H1 (conj H7 (conj
    (proj1 (proj2 (proj2 (make_ctstr_reads_back 3 [72; 73; 0] 1 Hlen))) H1)
    (proj2 (proj2 (proj2 (make_ctstr_reads_back 3 [72; 73; 0] 7 Hlen))) H7))))).
Defined.

(** X7. Copies are faithful: the converting constructor from a fixed
    string of the same size and [make_ctstr] on a fixed string both give
    back the string they were given, which compares equal to it. *)
Theorem ctstr_copies_preserve (N : nat) (s : ctstr N) :
  ctstr_wf s →
  ctstr_of_ctstr N s = s
  ∧ make_ctstr_copy s = s
  ∧ ctstr_eq (ctstr_of_ctstr N s) s = true
  ∧ ctstr_eq (make_ctstr_copy s) s = true.
Proof.
  intros Hwf. rewrite ctstr_of_ctstr_exact by done.
  assert (make_ctstr_copy s = s) as -> by by destruct s.
  assert (ctstr_eq s s = true) as Hrefl.
  { unfold ctstr_eq. rewrite Nat.eqb_refl. cbn [negb]. apply equal_loop_refl. }
  done.
Qed.

Lemma ctstr_copies_preserve_witness :
  ctstr_wf (make_ctstr 3 [72; 73; 0])
  ∧ ctstr_of_ctstr 3 (make_ctstr 3 [72; 73; 0]) = make_ctstr 3 [72; 73; 0].
Proof.
  assert (ctstr_wf (make_ctstr 3 [72; 73; 0])) as Hwf by (split; reflexivity).
  exact (conj Hwf (proj1 (ctstr_copies_preserve 3 _ Hwf))).
Defined.

(** X8. A default-constructed fixed string of size [N] holds [N] null
    characters: it satisfies the invariant, every index below [N] returns
    0, every other index throws, and it equals the array of [N] zeros. *)
Theorem ctstr_empty_spec (N i : nat) :
  ctstr_wf (ctstr_empty N)
  ∧ ctstr_index (ctstr_empty N) i
    = (if (i <? N)%nat then Returns 0
       else Throws_out_of_range "index out of range")
  ∧ ctstr_eq_array (ctstr_empty N) (replicate N 0) = true.
Proof.
  split; [apply ctstr_empty_wf|]. split.
  - unfold ctstr_index, ctstr_empty. cbn [str len].
    destruct (Nat.ltb_spec i N) as [Hi|Hi]; [|done].
    by rewrite (list_lookup_total_correct _ _ _
                  (lookup_replicate_2 N 0 i Hi)).
  - unfold ctstr_eq_array. rewrite length_replicate, Nat.eqb_refl. cbn [negb].
    apply equal_loop_refl.
Qed.

(** X9. Equality of fixed strings is symmetric, for operands of any two
    sizes, and so is inequality. *)
Theorem ctstr_eq_sym (N Y : nat) (a : ctstr N) (b : ctstr Y) :
  ctstr_eq a b = ctstr_eq b a ∧ ctstr_ne a b = ctstr_ne b a.
Proof.
  unfold ctstr_eq, ctstr_ne, ctstr_equal. rewrite (Nat.eqb_sym N Y).
  destruct (Nat.eqb_spec Y N) as [->|Hne]; [|done]. cbn [negb].
  by rewrite equal_loop_sym.
Qed.

(** X10. Equality of fixed strings is transitive. *)
Theorem ctstr_eq_trans (N Y W : nat) (a : ctstr N) (b : ctstr Y)
    (c : ctstr W) :
  ctstr_eq a b = true → ctstr_eq b c = true → ctstr_eq a c = true.
Proof.
  intros Hab Hbc.
  destruct (ctstr_eq_true_inv _ _ _ _ Hab) as [-> Hab'].
  destruct (ctstr_eq_true_inv _ _ _ _ Hbc) as [-> Hbc'].
  unfold ctstr_eq. rewrite Nat.eqb_refl. cbn [negb].
  apply ctstr_equal_true. intros j Hj. by rewrite Hab', Hbc'.
Qed.

Lemma ctstr_eq_trans_witness :
  ctstr_eq equal1 equal2 = true
  ∧ ctstr_eq equal2 (ctstr_copy equal1) = true
  ∧ ctstr_eq equal1 (ctstr_copy equal1) = true.
Proof.
  assert (ctstr_eq equal1 equal2 = true) as H12 by reflexivity.
  assert (ctstr_eq equal2 (ctstr_copy equal1) = true) as H23 by reflexivity.
  exact (conj H12 (conj H23 (ctstr_eq_trans 6 6 6 _ _ _ H12 H23))).
Defined.

(** X11. On fixed strings of one size that satisfy the invariant, the
    equality operator decides equality of the values: it answers [true]
    exactly when the two strings are the same. *)
Theorem ctstr_eq_reflects (N : nat) (a b : ctstr N) :
  ctstr_wf a → ctstr_wf b →
  (ctstr_eq a b = true ↔ a = b) ∧ (ctstr_ne a b = true ↔ a ≠ b).
Proof.
  intros [Hla Hna] [Hlb Hnb].
  assert (ctstr_eq a b = true ↔ a = b) as Heq.
  { unfold ctstr_eq. rewrite Nat.eqb_refl. cbn [negb].
    rewrite ctstr_equal_true, (list_eq_lookup_total _ _ N Hla Hlb).
    destruct a as [sa la], b as [sb lb]. cbn [str len] in *. subst.
    split; [by intros -> | by intros [= ->]]. }
  split; [exact Heq|].
  assert (ctstr_ne a b = negb (ctstr_eq a b)) as ->.
  { unfold ctstr_ne, ctstr_eq. by destruct (N =? N)%nat. }
  rewrite negb_true_iff, <- Heq. by destruct (ctstr_eq a b).
Qed.

Lemma ctstr_eq_reflects_witness :
  ctstr_wf plain1 ∧ ctstr_wf plain2 ∧ plain1 ≠ plain2.
Proof.
  assert (ctstr_wf plain1) as H1 by (split; reflexivity).
  assert (ctstr_wf plain2) as H2 by (split; reflexivity).
  exact (conj H1 (conj H2
    (proj1 (proj2 (ctstr_eq_reflects 10 plain1 plain2 H1 H2)) eq_refl))).
Defined.

(** X12. The two overloads of each comparison agree: comparing with a
    raw array gives the same answer as comparing with the fixed string
    made from that array. *)
Theorem ctstr_eq_array_agrees (N : nat) (a : ctstr N) (lit : list Z) :
  ctstr_eq_array a lit = ctstr_eq a (make_ctstr (length lit) lit)
  ∧ ctstr_ne_array a lit = ctstr_ne a (make_ctstr (length lit) lit).
Proof.
  unfold ctstr_eq_array, ctstr_eq, ctstr_ne_array, ctstr_ne, make_ctstr.
  by rewrite (ctstr_of_array_exact (length lit) lit eq_refl).
Qed.

(** ** The transform engine and the xor transform *)

Lemma transform_array_exact (N : nat) (_str : list Z) (F : Functor) :
  transform_array N _str F = Ctstr N ((λ i, F _str N i) <$> seq 0 N) N.
Proof.
  unfold transform_array.
  rewrite (for_range_fill (λ i, F _str N i)) by apply length_replicate.
  apply ctstr_of_array_exact. by rewrite length_fmap, length_seq.
Qed.

(** Two functors that agree on the indices below [N] transform alike. *)
Lemma transform_array_ext (N : nat) (A : list Z) (F G : Functor) :
  (∀ i, (i < N)%nat → F A N i = G A N i) →
  transform_array N A F = transform_array N A G.
Proof.
  intros Hagree. rewrite !transform_array_exact. f_equal.
  apply list_fmap_ext. intros k i Hk. apply Hagree.
  apply lookup_seq in Hk. lia.
Qed.

Lemma transform_twice_self_inverse (N : nat) (P : list Z) (F : Functor) :
  length P = N → self_inverse_on F N P →
  str (transform_array N (str (transform_array N P F)) F) = P.
Proof.
  intros Hlen Hinv. rewrite (transform_array_str N _ F).
  transitivity ((λ i, P !!! i) <$> seq 0 N);
    [|rewrite <- Hlen; apply seq_lookup_total_id].
  apply list_fmap_ext. intros k i Hk. apply Hinv.
  apply lookup_seq in Hk. lia.
Qed.

Lemma xor_low_byte_zero `{Platform} (x Key : Z) :
  Key mod 256 = 0 → is_char x → to_char (Z.lxor x Key) = x.
Proof.
  intros HKey Hx. rewrite <- (to_char_id x) at 2 by done.
  apply to_char_congr. by rewrite lxor_mod_256, HKey, Z.lxor_0_r.
Qed.

Lemma xor_same_low_byte `{Platform} (x Key Key' : Z) :
  Key mod 256 = Key' mod 256 →
  to_char (Z.lxor x Key) = to_char (Z.lxor x Key').
Proof. intros HKey. apply to_char_congr. by rewrite !lxor_mod_256, HKey. Qed.

Lemma xor_injective `{Platform} (x y Key : Z) :
  is_char x → is_char y →
  to_char (Z.lxor x Key) = to_char (Z.lxor y Key) → x = y.
Proof.
  intros Hx Hy Heq. rewrite <- (xor_twice x Key), <- (xor_twice y Key) by done.
  by rewrite Heq.
Qed.

Lemma crypt_array_str (N : nat) (F : Functor) (P : list Z) :
  str (cryptstr_ct (crypt_array N F P)) = (λ i, F P N i) <$> seq 0 N.
Proof.
  unfold crypt_array, cryptstr_ct, cryptstr_ctor. cbn [data].
  rewrite ctstr_copy_id. apply transform_array_str.
Qed.

(** X13. [construct_transform] computes what [transform] computes, in
    both overloads: a fixed string that satisfies the invariant and whose
    element at each index [i < N] is the functor's result for [i]. *)
Theorem construct_transform_spec (N : nat) (source : ctstr N) (A : list Z)
    (F : Functor) (i : nat) :
  (i < N)%nat →
  construct_transform_ctstr source F = transform_ctstr source F
  ∧ construct_transform_array N A F = transform_array N A F
  ∧ ctstr_wf (construct_transform_array N A F)
  ∧ ctstr_index (construct_transform_array N A F) i = Returns (F A N i)
  ∧ ctstr_index (construct_transform_ctstr source F) i
    = Returns (F (ctstr_get source) N i).
Proof.
  intros Hi.
  assert (∀ X, ctstr_index (transform_array N X F) i = Returns (F X N i))
    as Hidx.
  { intros X. rewrite transform_array_exact. unfold ctstr_index.
    cbn [str len]. rewrite (proj2 (Nat.ltb_lt _ _) Hi).
    erewrite list_lookup_total_correct; [done|].
    by rewrite list_lookup_fmap, lookup_seq_lt. }
  split; [done|]. split; [done|]. split; [apply transform_array_wf|].
  split; [apply Hidx|]. apply (Hidx (str source)).
Qed.

Lemma construct_transform_spec_witness :
  (1 < 3)%nat
  ∧ ctstr_index (construct_transform_array 3 [72; 73; 0] main_functor) 1
    = Returns 126.
Proof.
  assert (1 < 3)%nat as Hi by lia.
  exact (conj Hi (proj1 (proj2 (proj2 (proj2
    (construct_transform_spec 3 (ctstr_empty 3) [72; 73; 0] main_functor 1
       Hi)))))).
Defined.

(** X14. Xor with a fixed key is an involution of fixed strings: applying
    the transform engine twice with [xor_functor<Key>] to a fixed string
    of characters gives back that fixed string. *)
Theorem xor_transform_involution `{Platform} (N : nat) (s : ctstr N)
    (Key : Z) :
  ctstr_wf s → Forall is_char (str s) →
  transform_ctstr (transform_ctstr s (xor_functor Key)) (xor_functor Key) = s.
Proof.
  intros [Hlen Hn] Hchars. rewrite !transform_ctstr_unfold.
  pose proof (transform_twice_self_inverse N (str s) (xor_functor Key) Hlen
                (xor_functor_self_inverse Key N (str s) Hlen Hchars)) as Hstr.
  rewrite (transform_array_exact N (str (transform_array _ _ _))) in Hstr |- *.
  cbn [str] in Hstr. rewrite Hstr. destruct s as [ss ls]. cbn [len] in Hn.
  by subst.
Qed.

Lemma xor_transform_involution_witness :
  ctstr_wf plain1 ∧ Forall (@is_char x86_64) (str plain1)
  ∧ transform_ctstr (transform_ctstr plain1 main_functor) main_functor
    = plain1.
Proof.
  assert (ctstr_wf plain1) as Hwf by (split; reflexivity).
  assert (Forall (@is_char x86_64) (str plain1)) as Hchars
    by exact (@string_literal_is_char x86_64 "HELLO DOG").
  exact (conj Hwf (conj Hchars
    (@xor_transform_involution x86_64 10 plain1 0x1337 Hwf Hchars))).
Defined.

(** X15. A key whose low byte is zero obfuscates nothing: the string
    stored by [crypt] with such a key is the plaintext itself. *)
Theorem xor_key_low_byte_zero_stores_plaintext `{Platform} (N : nat)
    (P : list Z) (Key : Z) :
  length P = N → Forall is_char P → Key mod 256 = 0 →
  str (cryptstr_ct (crypt_array N (xor_functor Key) P)) = P.
Proof.
  intros Hlen Hchars HKey. rewrite crypt_array_str.
  transitivity ((λ i, P !!! i) <$> seq 0 N);
    [|rewrite <- Hlen; apply seq_lookup_total_id].
  apply list_fmap_ext. intros k i Hk. apply lookup_seq in Hk.
  unfold xor_functor. apply xor_low_byte_zero; [done|].
  destruct (lookup_lt_is_Some_2 P i ltac:(lia)) as [x Hx].
  rewrite (list_lookup_total_correct _ _ _ Hx).
  by apply (Forall_lookup_1 _ _ _ _ Hchars Hx).
Qed.

Lemma xor_key_low_byte_zero_stores_plaintext_witness :
  let P := @string_literal x86_64 "SECRET" in
  length P = 7%nat ∧ Forall (@is_char x86_64) P ∧ 0x1300 mod 256 = 0
  ∧ str (cryptstr_ct (crypt_array 7 (@xor_functor x86_64 0x1300) P)) = P.
Proof.
  intros P.
  assert (length P = 7%nat) as Hlen by reflexivity.
  assert (Forall (@is_char x86_64) P) as Hchars
    by apply (@string_literal_is_char x86_64).
  assert (0x1300 mod 256 = 0) as HKey by reflexivity.
  exact (conj Hlen (conj Hchars (conj HKey
    (@xor_key_low_byte_zero_stores_plaintext x86_64 7 P 0x1300
       Hlen Hchars HKey)))).
Defined.

(** X16. Only the low byte of the key matters: two keys that agree modulo
    256 give the same obfuscated value for every input. *)
Theorem xor_key_only_low_byte `{Platform} (N : nat) (P : list Z)
    (Key Key' : Z) :
  Key mod 256 = Key' mod 256 →
  transform_array N P (xor_functor Key) = transform_array N P (xor_functor Key').
Proof.
  intros HKey. apply transform_array_ext. intros i Hi.
  unfold xor_functor. by apply xor_same_low_byte.
Qed.

Lemma xor_key_only_low_byte_witness :
  0x1337 mod 256 = 0x37 mod 256
  ∧ transform_array 7 (@string_literal x86_64 "SECRET") (@xor_functor x86_64 0x1337)
    = transform_array 7 (@string_literal x86_64 "SECRET") (@xor_functor x86_64 0x37).
Proof.
  assert (0x1337 mod 256 = 0x37 mod 256) as HKey by reflexivity.
  exact (conj HKey (@xor_key_only_low_byte x86_64 7 _ 0x1337 0x37 HKey)).
Defined.

(** X17. Obfuscation with a fixed key is injective: two plaintexts of [N]
    characters have stored strings that compare equal exactly when the
    plaintexts are the same. *)
Theorem xor_crypt_injective `{Platform} (N : nat) (P P' : list Z) (Key : Z) :
  length P = N → length P' = N → Forall is_char P → Forall is_char P' →
  ctstr_eq (cryptstr_ct (crypt_array N (xor_functor Key) P))
           (cryptstr_ct (crypt_array N (xor_functor Key) P')) = true
  ↔ P = P'.
Proof.
  intros Hlen Hlen' Hchars Hchars'. split.
  - intros Heq. apply ctstr_eq_true_inv in Heq as [_ Heq].
    rewrite !crypt_array_str in Heq.
    apply (list_eq_lookup_total P P' N Hlen Hlen'). intros j Hj.
    specialize (Heq j Hj).
    rewrite !(list_lookup_total_correct _ j (xor_functor Key _ N j)) in Heq
      by by rewrite list_lookup_fmap, lookup_seq_lt.
    destruct (lookup_lt_is_Some_2 P j ltac:(lia)) as [x Hx].
    destruct (lookup_lt_is_Some_2 P' j ltac:(lia)) as [y Hy].
    unfold xor_functor in Heq.
    rewrite (list_lookup_total_correct _ _ _ Hx),
      (list_lookup_total_correct _ _ _ Hy) in Heq |- *.
    apply (xor_injective x y Key);
      [exact (Forall_lookup_1 _ _ _ _ Hchars Hx)
      |exact (Forall_lookup_1 _ _ _ _ Hchars' Hy)
      |exact Heq].
  - intros ->. unfold ctstr_eq. rewrite Nat.eqb_refl. cbn [negb].
    apply equal_loop_refl.
Qed.

Lemma xor_crypt_injective_witness :
  let P := @string_literal x86_64 "HELLO DOG" in
  let P' := @string_literal x86_64 "HELLO CAT" in
  length P = 10%nat ∧ length P' = 10%nat
  ∧ Forall (@is_char x86_64) P ∧ Forall (@is_char x86_64) P'
  ∧ (ctstr_eq (cryptstr_ct (crypt_array 10 main_functor P))
              (cryptstr_ct (crypt_array 10 main_functor P')) = true
     ↔ P = P').
Proof.
  intros P P'.
  assert (length P = 10%nat) as Hlen by reflexivity.
  assert (length P' = 10%nat) as Hlen' by reflexivity.
  assert (Forall (@is_char x86_64) P) as Hchars
    by apply (@string_literal_is_char x86_64).
  assert (Forall (@is_char x86_64) P') as Hchars'
    by apply (@string_literal_is_char x86_64).
  exact (conj Hlen (conj Hlen' (conj Hchars (conj Hchars'
    (@xor_crypt_injective x86_64 10 P P' 0x1337 Hlen Hlen' Hchars Hchars'))))).
Defined.

(** X18. Whatever the input and the key, every character [crypt] stores
    with [xor_functor] is a value of the character type. *)
Theorem xor_crypt_stores_chars `{Platform} (N : nat) (P : list Z) (Key : Z) :
  Forall is_char (str (cryptstr_ct (crypt_array N (xor_functor Key) P)))
  ∧ Forall is_char
      (str (cryptstr_ct (crypt_ctstr (xor_functor Key) (make_ctstr N P)))).
Proof.
  assert (∀ X, Forall is_char (str (transform_array N X (xor_functor Key))))
    as Hall.
  { intros X. rewrite transform_array_str. apply Forall_fmap, Forall_true.
    intros i. apply to_char_is_char. }
  unfold crypt_array, crypt_ctstr, cryptstr_ct, cryptstr_ctor. cbn [data].
  rewrite !ctstr_copy_id, transform_ctstr_unfold. split; apply Hall.
Qed.

(** X19. With a key whose low byte is not zero, the stored string of a
    non-empty plaintext compares unequal to the plaintext, under both
    overloads of the inequality operator. *)
Theorem xor_crypt_ne_plaintext `{Platform} (N : nat) (P : list Z) (Key : Z) :
  (0 < N)%nat → length P = N → Key mod 256 ≠ 0 →
  ctstr_ne (cryptstr_ct (crypt_array N (xor_functor Key) P)) (make_ctstr N P)
  = true
  ∧ ctstr_ne_array (cryptstr_ct (crypt_array N (xor_functor Key) P)) P = true.
Proof.
  intros HN Hlen HKey.
  assert (ctstr_equal (cryptstr_ct (crypt_array N (xor_functor Key) P)) P
          = false) as Hneq.
  { apply not_true_is_false. intros Heq.
    rewrite ctstr_equal_true in Heq. specialize (Heq O HN).
    rewrite crypt_array_str in Heq.
    rewrite (list_lookup_total_correct _ O (xor_functor Key P N O)) in Heq
      by by rewrite list_lookup_fmap, lookup_seq_lt.
    unfold xor_functor in Heq. by apply xor_changes in Heq. }
  unfold ctstr_ne, ctstr_ne_array, make_ctstr.
  rewrite ctstr_of_array_exact by done. cbn [str].
  rewrite Hlen, Nat.eqb_refl. cbn [negb]. by rewrite Hneq.
Qed.

Lemma xor_crypt_ne_plaintext_witness :
  let P := @string_literal x86_64 "FIRST CRYPTED STRING" in
  (0 < 21)%nat ∧ length P = 21%nat ∧ 0x1337 mod 256 ≠ 0
  ∧ ctstr_ne_array (cryptstr_ct crypted1) P = true.
Proof.
  intros P.
  assert (0 < 21)%nat as HN by lia.
  assert (length P = 21%nat) as Hlen by reflexivity.
  assert (0x1337 mod 256 ≠ 0) as HKey by (vm_compute; discriminate).
  exact (conj HN (conj Hlen (conj HKey
    (proj2 (@xor_crypt_ne_plaintext x86_64 21 P 0x1337 HN Hlen HKey))))).
Defined.

(** X20. The size an obfuscated value reports is the size of the fixed
    string it stores, and that string satisfies the invariant, for every
    functor and either [crypt] overload. *)
Theorem cryptstr_size_ct (N : nat) (F : Functor) (A : list Z) (s : ctstr N) :
  cryptstr_size (crypt_array N F A) = ctstr_size (cryptstr_ct (crypt_array N F A))
  ∧ cryptstr_size (crypt_ctstr F s) = ctstr_size (cryptstr_ct (crypt_ctstr F s))
  ∧ ctstr_wf (cryptstr_ct (crypt_array N F A))
  ∧ ctstr_wf (cryptstr_ct (crypt_ctstr F s)).
Proof.
  unfold crypt_array, crypt_ctstr, cryptstr_ct, cryptstr_ctor, cryptstr_size.
  cbn [data]. rewrite !ctstr_copy_id, transform_ctstr_unfold.
  pose proof (transform_array_wf N A F) as HA.
  pose proof (transform_array_wf N (str s) F) as Hs.
  unfold ctstr_size. by rewrite (proj2 HA), (proj2 Hs).
Qed.

(** ** Decoding, views and allocators *)

Lemma basic_string_ctor_outside (buf s : Z) (count : nat) (h : heap) (a : Z) :
  a < buf ∨ buf + Z.of_nat count < a →
  bytes (basic_string_ctor buf s count h) a = bytes h a.
Proof.
  intros Ha. unfold basic_string_ctor. cbn [bytes].
  rewrite poke_ne by lia. rewrite store_array_spec, load_array_length.
  rewrite bool_decide_eq_false_2; [done | lia].
Qed.

(** The writes of [cryptstr_decrypt] go to the cells of [raw] and to the
    buffer of the view, terminator included. *)
Lemma cryptstr_decrypt_outside (N : nat) (raw_get zero_this buf : Z)
    (c : cryptstr N) (h : heap) (a : Z) :
  a < raw_get ∨ raw_get + Z.of_nat N ≤ a →
  a < buf ∨ buf + Z.of_nat N < a →
  bytes (cryptstr_decrypt raw_get zero_this buf c h).2 a = bytes h a.
Proof.
  intros Hraw Hbuf. unfold cryptstr_decrypt, strview_ctor.
  cbn [snd bytes memzero]. rewrite transform_ctstr_unfold.
  destruct (transform_array_wf N (str (data c)) (functor c)) as [Hlen Hn].
  set (raw := transform_array N (str (data c)) (functor c)) in *.
  unfold ctstr_size. rewrite Hn.
  rewrite memzero_loop_outside by (unfold sizeof_CharType; lia).
  rewrite basic_string_ctor_outside by done. cbn [bytes].
  rewrite store_array_spec, Hlen.
  rewrite bool_decide_eq_false_2; [done | lia].
Qed.

(** X21. What decoding yields, for any functor: a view of size [N] on the
    given buffer whose character at each index [i < N] is the stored
    functor applied to the stored string at [i]. *)
Theorem decrypt_applies_functor (N : nat) (raw_get zero_this buf : Z)
    (c : cryptstr N) (h : heap) (i : nat) :
  raw_get + Z.of_nat N ≤ buf ∨ buf + Z.of_nat N ≤ raw_get →
  (i < N)%nat →
  let vh := cryptstr_decrypt raw_get zero_this buf c h in
  strview_size vh.1 = N
  ∧ strview_c_str vh.1 = buf
  ∧ strview_content vh.1 vh.2 !! i
    = Some (functor c (ctstr_get (cryptstr_ct c)) N i).
Proof.
  intros Hdisj Hi vh.
  destruct (cryptstr_decrypt_content N raw_get zero_this buf c h Hdisj)
    as (Hsize & Hbuf & Hcontent & _).
  fold vh in Hsize, Hbuf, Hcontent.
  split; [done|]. split; [done|].
  rewrite Hcontent, transform_ctstr_unfold.
  by apply transform_array_lookup.
Qed.

Lemma decrypt_applies_functor_witness :
  let c := crypt_array 2 (@shift_functor x86_64) [65; 0] in
  let vh := cryptstr_decrypt 1000 2000 3000 c heap7 in
  (1000 + Z.of_nat 2 ≤ 3000 ∨ 3000 + Z.of_nat 2 ≤ 1000) ∧ (0 < 2)%nat
  ∧ strview_content vh.1 vh.2 !! 0%nat = Some 67.
Proof.
  intros c vh.
  assert (1000 + Z.of_nat 2 ≤ 3000 ∨ 3000 + Z.of_nat 2 ≤ 1000) as Hdisj by lia.
  assert (0 < 2)%nat as Hi by lia.
  exact (conj Hdisj (conj Hi (proj2 (proj2
    (decrypt_applies_functor 2 1000 2000 3000 c heap7 0 Hdisj Hi))))).
Defined.

(** X22. Decoding leaves no transient plaintext behind: on return each of
    the [N] cells of the local [raw] is zero, wherever the view's buffer
    lies. *)
Theorem decrypt_wipes_raw (N : nat) (raw_get zero_this buf : Z)
    (c : cryptstr N) (h : heap) (a : Z) :
  raw_get ≤ a < raw_get + Z.of_nat N →
  bytes (cryptstr_decrypt raw_get zero_this buf c h).2 a = 0.
Proof.
  intros Ha. unfold cryptstr_decrypt, strview_ctor. cbn [snd bytes memzero].
  apply memzero_loop_inside. unfold sizeof_CharType. lia.
Qed.

Lemma decrypt_wipes_raw_witness :
  1000 ≤ 1003 < 1000 + Z.of_nat 21
  ∧ bytes (cryptstr_decrypt 1000 2000 3000 crypted1 heap7).2 1003 = 0.
Proof.
  assert (1000 ≤ 1003 < 1000 + Z.of_nat 21) as Ha by lia.
  exact (conj Ha (decrypt_wipes_raw 21 1000 2000 3000 crypted1 heap7 1003 Ha)).
Defined.

(** X24. Views are independent: a later decoding, whose local and whose
    buffer lie apart from the buffer of an earlier view, leaves the
    content of the earlier view as it was. *)
Theorem decrypt_independent_views (N1 N2 : nat)
    (raw1 zt1 buf1 raw2 zt2 buf2 : Z) (c1 : cryptstr N1) (c2 : cryptstr N2)
    (h : heap) :
  raw1 + Z.of_nat N1 ≤ buf1 ∨ buf1 + Z.of_nat N1 ≤ raw1 →
  raw2 + Z.of_nat N2 ≤ buf1 ∨ buf1 + Z.of_nat N1 ≤ raw2 →
  buf2 + Z.of_nat N2 < buf1 ∨ buf1 + Z.of_nat N1 ≤ buf2 →
  let vh1 := cryptstr_decrypt raw1 zt1 buf1 c1 h in
  let vh2 := cryptstr_decrypt raw2 zt2 buf2 c2 vh1.2 in
  strview_content vh1.1 vh2.2 = strview_content vh1.1 vh1.2
  ∧ strview_content vh1.1 vh2.2
    = str (transform_ctstr (data c1) (functor c1)).
Proof.
  intros Hdisj1 Hraw2 Hbuf2 vh1 vh2.
  destruct (cryptstr_decrypt_content N1 raw1 zt1 buf1 c1 h Hdisj1)
    as (Hsize & Hbuf & Hcontent & _).
  fold vh1 in Hsize, Hbuf, Hcontent.
  assert (strview_content vh1.1 vh2.2 = strview_content vh1.1 vh1.2) as Hsame.
  { unfold strview_content. rewrite Hsize, Hbuf.
    apply load_array_ext. intros a Ha. subst vh2.
    apply cryptstr_decrypt_outside; lia. }
  split; [exact Hsame|]. by rewrite Hsame.
Qed.

Lemma decrypt_independent_views_witness :
  let vh1 := cryptstr_decrypt 1000 2000 3000 crypted1 heap7 in
  let vh2 := cryptstr_decrypt 1100 2100 3100 crypted2 vh1.2 in
  (1000 + Z.of_nat 21 ≤ 3000 ∨ 3000 + Z.of_nat 21 ≤ 1000)
  ∧ (1100 + Z.of_nat 22 ≤ 3000 ∨ 3000 + Z.of_nat 21 ≤ 1100)
  ∧ (3100 + Z.of_nat 22 < 3000 ∨ 3000 + Z.of_nat 21 ≤ 3100)
  ∧ strview_content vh1.1 vh2.2 = strview_content vh1.1 vh1.2.
Proof.
  intros vh1 vh2.
  assert (1000 + Z.of_nat 21 ≤ 3000 ∨ 3000 + Z.of_nat 21 ≤ 1000) as H1 by lia.
  assert (1100 + Z.of_nat 22 ≤ 3000 ∨ 3000 + Z.of_nat 21 ≤ 1100) as H2 by lia.
  assert (3100 + Z.of_nat 22 < 3000 ∨ 3000 + Z.of_nat 21 ≤ 3100) as H3 by lia.
  exact (conj H1 (conj H2 (conj H3 (proj1
    (decrypt_independent_views 21 22 1000 2000 3000 1100 2100 3100
       crypted1 crypted2 heap7 H1 H2 H3))))).
Defined.

(** X25. After a string has been decoded and its view destroyed, no cell
    of the transient [raw] and no cell of the view's buffer holds
    anything but zero, for every functor and every stored string. *)
Theorem decrypt_then_destroy_erases `{Platform} (N : nat)
    (raw_get zero_this buf : Z) (c : cryptstr N) (h : heap) (a : Z) :
  raw_get + Z.of_nat N ≤ buf ∨ buf + Z.of_nat N ≤ raw_get →
  raw_get ≤ a < raw_get + Z.of_nat N ∨ buf ≤ a < buf + Z.of_nat N →
  let vh := cryptstr_decrypt raw_get zero_this buf c h in
  bytes (strview_destroy vh.1 vh.2) a = 0.
Proof.
  intros Hdisj Ha vh. subst vh.
  destruct (cryptstr_decrypt_content N raw_get zero_this buf c h Hdisj)
    as (Hsize & Hbuf & _ & Hraw).
  rewrite strview_destroy_unfold. destruct Ha as [Ha|Ha].
  - unfold strview_wiped, zero_dtor, strview_dtor_body, memzero. cbn [bytes].
    do 2 apply memzero_loop_keeps_zero.
    pose proof (load_array_lookup
                  (bytes (cryptstr_decrypt raw_get zero_this buf c h).2)
                  raw_get N (Z.to_nat (a - raw_get)) ltac:(lia)) as Hget.
    rewrite Hraw, lookup_replicate_2 in Hget by lia.
    replace (raw_get + Z.of_nat (Z.to_nat (a - raw_get))) with a in Hget by lia.
    congruence.
  - apply strview_wiped_buffer_zero.
    rewrite Hbuf, Hsize. unfold sizeof_CharType. lia.
Qed.

Lemma decrypt_then_destroy_erases_witness :
  let vh := cryptstr_decrypt 1000 2000 3000 crypted1 heap7 in
  (1000 + Z.of_nat 21 ≤ 3000 ∨ 3000 + Z.of_nat 21 ≤ 1000)
  ∧ (1000 ≤ 3005 < 1000 + Z.of_nat 21 ∨ 3000 ≤ 3005 < 3000 + Z.of_nat 21)
  ∧ bytes vh.2 3005 = 32
  ∧ bytes (@strview_destroy x86_64 vh.1 vh.2) 3005 = 0.
Proof.
  intros vh.
  assert (1000 + Z.of_nat 21 ≤ 3000 ∨ 3000 + Z.of_nat 21 ≤ 1000) as Hdisj
    by lia.
  assert (1000 ≤ 3005 < 1000 + Z.of_nat 21 ∨ 3000 ≤ 3005 < 3000 + Z.of_nat 21)
    as Ha by lia.
  exact (conj Hdisj (conj Ha (conj eq_refl
    (@decrypt_then_destroy_erases x86_64 21 1000 2000 3000 crypted1 heap7 3005
       Hdisj Ha)))).
Defined.

(** X26. Destroying a view writes nothing but zeros, and writes only to
    its buffer and to the view object itself: every cell is afterwards
    either zero or as before, and a cell outside both ranges is as
    before. *)
Theorem strview_destroy_frame `{Platform} (v : strview) (h : heap) (a : Z) :
  (bytes (strview_destroy v h) a = 0
   ∨ bytes (strview_destroy v h) a = bytes h a)
  ∧ (a < strview_c_str v
     ∨ strview_c_str v + Z.of_nat (strview_size v * sizeof_CharType) ≤ a →
     a < strview_zero_this v
     ∨ strview_zero_this v + Z.of_nat sizeof_strview ≤ a →
     bytes (strview_destroy v h) a = bytes h a).
Proof.
  rewrite strview_destroy_unfold.
  unfold strview_wiped, zero_dtor, strview_dtor_body, memzero.
  cbn [bytes]. rewrite !memzero_loop_spec. split.
  - repeat case_bool_decide; auto.
  - intros Hbuf Hobj. rewrite !bool_decide_eq_false_2; [done | lia..].
Qed.

Lemma strview_destroy_frame_witness :
  let v := Strview 2000 3000 21 in
  (5000 < 3000 ∨ 3000 + Z.of_nat (21 * sizeof_CharType) ≤ 5000)
  ∧ (5000 < 2000 ∨ 2000 + Z.of_nat (@sizeof_strview x86_64) ≤ 5000)
  ∧ bytes (@strview_destroy x86_64 v heap7) 5000 = 7.
Proof.
  intros v.
  assert (5000 < 3000 ∨ 3000 + Z.of_nat (21 * sizeof_CharType) ≤ 5000)
    as Hbuf by (unfold sizeof_CharType; lia).
  assert (5000 < 2000 ∨ 2000 + Z.of_nat (@sizeof_strview x86_64) ≤ 5000)
    as Hobj by (cbn; lia).
  exact (conj Hbuf (conj Hobj
    (proj2 (@strview_destroy_frame x86_64 v heap7 5000) Hbuf Hobj))).
Defined.

(** X27. Round trip of a literal: for every string literal and every key,
    encoding the literal with [xor_functor<Key>] and decoding gives a view
    whose content is the literal with its terminating null character and
    whose size is the length of the literal plus one. *)
Theorem xor_roundtrip_literal `{Platform} (lit : string) (Key : Z)
    (raw_get zero_this buf : Z) (h : heap) :
  let N := Datatypes.S (String.length lit) in
  raw_get + Z.of_nat N ≤ buf ∨ buf + Z.of_nat N ≤ raw_get →
  let vh :=
    cryptstr_decrypt raw_get zero_this buf
      (crypt_array N (xor_functor Key) (string_literal lit)) h in
  strview_size vh.1 = N
  ∧ strview_content vh.1 vh.2 = string_literal lit.
Proof.
  intros N Hdisj vh.
  destruct (cryptstr_decrypt_content N raw_get zero_this buf
              (crypt_array N (xor_functor Key) (string_literal lit)) h Hdisj)
    as (Hsize & _ & Hcontent & _).
  fold vh in Hsize, Hcontent. split; [done|].
  rewrite Hcontent. unfold crypt_array, cryptstr_ctor. cbn [data functor].
  rewrite ctstr_copy_id, transform_ctstr_unfold.
  apply transform_twice_self_inverse; [apply string_literal_length|].
  apply xor_functor_self_inverse;
    [apply string_literal_length | apply string_literal_is_char].
Qed.

Lemma xor_roundtrip_literal_witness :
  let vh :=
    cryptstr_decrypt 1000 2000 3000
      (crypt_array 7 (@xor_functor x86_64 0x1337) (@string_literal x86_64 "SECRET"))
      heap7 in
  (1000 + Z.of_nat 7 ≤ 3000 ∨ 3000 + Z.of_nat 7 ≤ 1000)
  ∧ strview_content vh.1 vh.2 = @string_literal x86_64 "SECRET".
Proof.
  intros vh.
  assert (1000 + Z.of_nat 7 ≤ 3000 ∨ 3000 + Z.of_nat 7 ≤ 1000) as Hdisj by lia.
  exact (conj Hdisj (proj2
    (@xor_roundtrip_literal x86_64 "SECRET" 0x1337 1000 2000 3000 heap7 Hdisj))).
Defined.

(** X28. [zero_plugin_allocator]: over a base allocator whose [destroy]
    and [deallocate] write to no cell, the object destroyed and the block
    of [n] objects deallocated hold only zeros afterwards, and cells
    outside them are as before. *)
Theorem zero_plugin_allocator_wipes `{BaseAllocator} (p : Z) (n : nat)
    (h : heap) (a : Z) :
  (∀ q h' x, bytes (Base_destroy q h') x = bytes h' x) →
  (∀ q k h' x, bytes (Base_deallocate q k h') x = bytes h' x) →
  (p ≤ a < p + Z.of_nat sizeof_value_type →
     bytes (zero_plugin_allocator_destroy p h) a = 0)
  ∧ (p ≤ a < p + Z.of_nat (sizeof_value_type * n) →
     bytes (zero_plugin_allocator_deallocate p n h) a = 0)
  ∧ (a < p ∨ p + Z.of_nat (sizeof_value_type * n) ≤ a →
     bytes (zero_plugin_allocator_deallocate p n h) a = bytes h a).
Proof.
  intros Hdestroy Hdealloc.
  unfold zero_plugin_allocator_destroy, zero_plugin_allocator_deallocate.
  rewrite Hdestroy, Hdealloc. unfold memzero. cbn [bytes].
  split; [|split].
  - apply memzero_loop_inside.
  - apply memzero_loop_inside.
  - apply memzero_loop_outside.
Qed.

Lemma zero_plugin_allocator_wipes_witness :
  (∀ q h' x, bytes (@Base_destroy std_allocator_char q h') x = bytes h' x)
  ∧ (∀ q k h' x,
       bytes (@Base_deallocate std_allocator_char q k h') x = bytes h' x)
  ∧ 1000 ≤ 1003 < 1000 + Z.of_nat (@sizeof_value_type std_allocator_char * 4)
  ∧ bytes (@zero_plugin_allocator_deallocate std_allocator_char 1000 4 heap7)
      1003 = 0.
Proof.
  assert (∀ q h' x, bytes (@Base_destroy std_allocator_char q h') x
                    = bytes h' x) as Hd by reflexivity.
  assert (∀ q k h' x, bytes (@Base_deallocate std_allocator_char q k h') x
                      = bytes h' x) as Hf by reflexivity.
  assert (1000 ≤ 1003
          < 1000 + Z.of_nat (@sizeof_value_type std_allocator_char * 4))
    as Ha by (cbn; lia).
  exact (conj Hd (conj Hf (conj Ha
    (proj1 (proj2 (@zero_plugin_allocator_wipes std_allocator_char
                     1000 4 heap7 1003 Hd Hf)) Ha)))).
Defined.

(** ** Allocation in [decrypt] and what destruction hands back *)


(** X29. The exception path of [decrypt]: when the decoded string does not
    fit the string object and the allocator has no block, [decrypt]
    throws [std::bad_alloc] before its [memzero], so each cell of the
    local [raw] still holds the decoded character; no block is owned that
    was not owned before. *)
Theorem decrypt_bad_alloc_leaves_raw `{Platform} (N : nat)
    (raw_get zero_this : Z) (c : cryptstr N) (h : heap) (i : nat) :
  (sso_capacity < N)%nat → (i < N)%nat →
  let r := cryptstr_decrypt_outcome raw_get zero_this None c h in
  r.1 = Throws_bad_alloc
  ∧ bytes r.2 (raw_get + Z.of_nat i)
    = functor c (ctstr_get (cryptstr_ct c)) N i
  ∧ live r.2 = live h.
Proof.
  intros HN Hi r. subst r. rewrite cryptstr_decrypt_outcome_fails by done.
  cbn [fst snd bytes live]. split; [done|]. split; [|done].
  rewrite transform_ctstr_unfold.
  destruct (transform_array_wf N (str (data c)) (functor c)) as [Hlen _].
  rewrite store_array_spec, Hlen, bool_decide_eq_true_2 by lia.
  replace (Z.to_nat (raw_get + Z.of_nat i - raw_get)) with i by lia.
  by rewrite (list_lookup_total_correct _ _ _
                (transform_array_lookup N (str (data c)) (functor c) i Hi)).
Qed.

Lemma decrypt_bad_alloc_leaves_raw_witness :
  let r := @cryptstr_decrypt_outcome x86_64 21 1000 2000 None crypted1 heap7 in
  (@sso_capacity x86_64 < 21)%nat ∧ (0 < 21)%nat
  ∧ r.1 = Throws_bad_alloc
  ∧ bytes r.2 (1000 + Z.of_nat 0) = 70.
Proof.
  intros r.
  assert (@sso_capacity x86_64 < 21)%nat as HN by (cbn; lia).
  assert (0 < 21)%nat as Hi by lia.
  destruct (@decrypt_bad_alloc_leaves_raw x86_64 21 1000 2000 crypted1 heap7 0
              HN Hi) as (Hthrow & Hcell & _).
  exact (conj HN (conj Hi (conj Hthrow Hcell))).
Defined.




